(** * janus: a queue shared by threads and asyncio tasks

    Shallow embedding of [janus/__init__.py] (version 1.1.0).

    The three classes [Queue], [LifoQueue] and [PriorityQueue] share one
    record, [Queue], with the class recorded in [_kind]; the two facades
    [_SyncQueueProxy] and [_AsyncQueueProxy] are functions over it.

    Every function below is one critical section of the source: the code
    a thread or task runs from the moment it takes a step until it
    returns, raises, or parks in a [wait].  Code is written in a small
    monad [M] that threads the queue, collects the calls made to the
    outside world (condition notifications, submissions to the event loop
    and to the executor) and stops at the first exception or wait.  What
    happens while a caller is parked is the business of the other
    callers: a parked call is resumed by a separate action, at any time
    (a wait may return with nothing to wait for).  The test of the closing
    flag that opens a method is taken in one step with the critical
    section that follows it.  Time is a rational number. *)

From Stdlib Require Import ZArith QArith Lia ZifyNat.
From stdpp Require Import base list sorting.

Ltac div_lia := zify; Z.div_mod_to_equations; lia.

Section Janus.

(** Items of the queue, with Python's [<] on them.  [lt] is a function
    to [bool]: the items are taken to compare.  A [<] that raises
    ([TypeError] between two entries of a [PriorityQueue] that cannot be
    ordered) stops [heappush] after its [append] and [heappop] after its
    [pop]; that path is outside this development, and what is stated of
    a [PriorityQueue] that rests on a comparison is stated of items that
    compare. *)
Context {T : Type} (lt : T → T → bool).

(** ** Containers of the standard library used by the strategies *)

(** [deque.popleft()] *)
Definition popleft (l : list T) : option (T * list T) :=
  match l with
  | [] => None
  | x :: l => Some (x, l)
  end.

(** [deque.pop()], [list.pop()] *)
Definition pop (l : list T) : option (T * list T) :=
  x ← last l; Some (x, take (length l - 1) l).

(** [heapq._siftdown]: the body of its [while] loop.  [None] is an
    [IndexError], or the fuel running out; [_siftdown] passes enough of
    it. *)
Fixpoint _siftdown_loop (fuel : nat) (heap : list T) (startpos pos : nat)
    (newitem : T) : option (list T) :=
  match fuel with
  | O => None
  | S fuel =>
    if startpos <? pos then
      let parentpos := (pos - 1) / 2 in
      parent ← heap !! parentpos;
      if lt newitem parent then
        _siftdown_loop fuel (<[pos:=parent]> heap) startpos parentpos newitem
      else Some (<[pos:=newitem]> heap)
    else Some (<[pos:=newitem]> heap)
  end.

Definition _siftdown (heap : list T) (startpos pos : nat) : option (list T) :=
  newitem ← heap !! pos;
  _siftdown_loop (S pos) heap startpos pos newitem.

(** [heapq._siftup]: the loop that bubbles the smaller child up until a
    leaf is reached; returns the heap and the final [pos]. *)
Fixpoint _siftup_loop (fuel : nat) (heap : list T) (endpos pos : nat)
    : option (list T * nat) :=
  match fuel with
  | O => None
  | S fuel =>
    let childpos := 2 * pos + 1 in
    if childpos <? endpos then
      let rightpos := childpos + 1 in
      childpos ← (if rightpos <? endpos then
                    l ← heap !! childpos; r ← heap !! rightpos;
                    Some (if negb (lt l r) then rightpos else childpos)
                  else Some childpos);
      child ← heap !! childpos;
      _siftup_loop fuel (<[pos:=child]> heap) endpos childpos
    else Some (heap, pos)
  end.

Definition _siftup (heap : list T) (pos : nat) : option (list T) :=
  let endpos := length heap in
  let startpos := pos in
  newitem ← heap !! pos;
  '(heap, pos) ← _siftup_loop (S endpos) heap endpos pos;
  _siftdown (<[pos:=newitem]> heap) startpos pos.

(** [heapq.heappush] *)
Definition heappush (heap : list T) (item : T) : option (list T) :=
  let heap := heap ++ [item] in
  _siftdown heap 0 (length heap - 1).

(** [heapq.heappop] *)
Definition heappop (heap : list T) : option (T * list T) :=
  '(lastelt, heap) ← pop heap;
  match heap with
  | [] => Some (lastelt, heap)
  | _ :: _ =>
    returnitem ← heap !! 0;
    heap ← _siftup (<[0:=lastelt]> heap) 0;
    Some (returnitem, heap)
  end.

(** ** Data *)

(** The class of the queue object. *)
Inductive kind := Fifo | Lifo | Priority.

(** An asyncio event loop, by identity. *)
Definition loop := nat.

Inductive exn :=
| RuntimeError_closed      (* Operation on the closed queue is forbidden *)
| RuntimeError_other_loop  (* ... is bound to a different event loop *)
| RuntimeError_no_loop     (* asyncio.get_running_loop(): no running event loop *)
| RuntimeError_not_closed  (* Waiting for non-closed queue *)
| ValueError_task_done     (* task_done() called too many times *)
| ValueError_timeout       (* 'timeout' must be a non-negative number *)
| SyncQueueFull
| SyncQueueEmpty
| AsyncQueueFull
| AsyncQueueEmpty
| IndexError
| AssertionError
| CancelledError.

(** The condition variables of both domains. *)
Inductive cond :=
| Sync_not_empty | Sync_not_full | All_tasks_done
| Async_not_empty | Async_not_full.

(** Callbacks handed to [loop.call_soon_threadsafe]. *)
Inductive callback :=
| Make_async_not_empty_notifier
| Make_async_not_full_notifier
| Finished_set.

(** Notification jobs: the functions run by the executor and the
    coroutines run as tasks. *)
Inductive job :=
| Sync_not_empty_notifier
| Sync_not_full_notifier
| Async_not_empty_notifier
| Async_not_full_notifier.

(** Calls that leave the queue object. *)
Inductive effect :=
| Notify (c : cond)                      (* c.notify() *)
| Notify_all (c : cond)                  (* c.notify_all() *)
| Call_soon_threadsafe (cb : callback)   (* accepted by the loop *)
| Run_in_executor (j : job)
| Create_task (j : job).

(** The futures and tasks kept in [_pending]. *)
Record Fut := { fut_job : job; fut_cancelled : bool }.

(** [fut.cancel()] *)
Definition cancel (f : Fut) : Fut :=
  {| fut_job := fut_job f; fut_cancelled := true |}.

Record Queue := {
  _kind : kind;
  _loop : option loop;
  _maxsize : Z;
  _queue : list T;              (* [_queue], or [_heap_queue] of PriorityQueue *)
  _unfinished_tasks : Z;
  _sync_mutex : bool;           (* [true]: locked *)
  _sync_not_empty_waiting : Z;
  _sync_not_full_waiting : Z;
  _async_not_empty_waiting : Z;
  _async_not_full_waiting : Z;
  _finished : bool;             (* the asyncio.Event: [true] when set *)
  _closing : bool;
  _pending : list Fut;
}.

Definition set_loop (v : option loop) (q : Queue) : Queue :=
  {| _kind := _kind q; _loop := v; _maxsize := _maxsize q; _queue := _queue q;
     _unfinished_tasks := _unfinished_tasks q; _sync_mutex := _sync_mutex q;
     _sync_not_empty_waiting := _sync_not_empty_waiting q;
     _sync_not_full_waiting := _sync_not_full_waiting q;
     _async_not_empty_waiting := _async_not_empty_waiting q;
     _async_not_full_waiting := _async_not_full_waiting q;
     _finished := _finished q; _closing := _closing q; _pending := _pending q |}.

Definition set_queue (v : list T) (q : Queue) : Queue :=
  {| _kind := _kind q; _loop := _loop q; _maxsize := _maxsize q; _queue := v;
     _unfinished_tasks := _unfinished_tasks q; _sync_mutex := _sync_mutex q;
     _sync_not_empty_waiting := _sync_not_empty_waiting q;
     _sync_not_full_waiting := _sync_not_full_waiting q;
     _async_not_empty_waiting := _async_not_empty_waiting q;
     _async_not_full_waiting := _async_not_full_waiting q;
     _finished := _finished q; _closing := _closing q; _pending := _pending q |}.

Definition set_unfinished_tasks (v : Z) (q : Queue) : Queue :=
  {| _kind := _kind q; _loop := _loop q; _maxsize := _maxsize q;
     _queue := _queue q;
     _unfinished_tasks := v; _sync_mutex := _sync_mutex q;
     _sync_not_empty_waiting := _sync_not_empty_waiting q;
     _sync_not_full_waiting := _sync_not_full_waiting q;
     _async_not_empty_waiting := _async_not_empty_waiting q;
     _async_not_full_waiting := _async_not_full_waiting q;
     _finished := _finished q; _closing := _closing q; _pending := _pending q |}.

Definition set_sync_mutex (v : bool) (q : Queue) : Queue :=
  {| _kind := _kind q; _loop := _loop q; _maxsize := _maxsize q;
     _queue := _queue q;
     _unfinished_tasks := _unfinished_tasks q; _sync_mutex := v;
     _sync_not_empty_waiting := _sync_not_empty_waiting q;
     _sync_not_full_waiting := _sync_not_full_waiting q;
     _async_not_empty_waiting := _async_not_empty_waiting q;
     _async_not_full_waiting := _async_not_full_waiting q;
     _finished := _finished q; _closing := _closing q; _pending := _pending q |}.

Definition set_sync_not_empty_waiting (v : Z) (q : Queue) : Queue :=
  {| _kind := _kind q; _loop := _loop q; _maxsize := _maxsize q;
     _queue := _queue q;
     _unfinished_tasks := _unfinished_tasks q; _sync_mutex := _sync_mutex q;
     _sync_not_empty_waiting := v;
     _sync_not_full_waiting := _sync_not_full_waiting q;
     _async_not_empty_waiting := _async_not_empty_waiting q;
     _async_not_full_waiting := _async_not_full_waiting q;
     _finished := _finished q; _closing := _closing q; _pending := _pending q |}.

Definition set_sync_not_full_waiting (v : Z) (q : Queue) : Queue :=
  {| _kind := _kind q; _loop := _loop q; _maxsize := _maxsize q;
     _queue := _queue q;
     _unfinished_tasks := _unfinished_tasks q; _sync_mutex := _sync_mutex q;
     _sync_not_empty_waiting := _sync_not_empty_waiting q;
     _sync_not_full_waiting := v;
     _async_not_empty_waiting := _async_not_empty_waiting q;
     _async_not_full_waiting := _async_not_full_waiting q;
     _finished := _finished q; _closing := _closing q; _pending := _pending q |}.

Definition set_async_not_empty_waiting (v : Z) (q : Queue) : Queue :=
  {| _kind := _kind q; _loop := _loop q; _maxsize := _maxsize q;
     _queue := _queue q;
     _unfinished_tasks := _unfinished_tasks q; _sync_mutex := _sync_mutex q;
     _sync_not_empty_waiting := _sync_not_empty_waiting q;
     _sync_not_full_waiting := _sync_not_full_waiting q;
     _async_not_empty_waiting := v;
     _async_not_full_waiting := _async_not_full_waiting q;
     _finished := _finished q; _closing := _closing q; _pending := _pending q |}.

Definition set_async_not_full_waiting (v : Z) (q : Queue) : Queue :=
  {| _kind := _kind q; _loop := _loop q; _maxsize := _maxsize q;
     _queue := _queue q;
     _unfinished_tasks := _unfinished_tasks q; _sync_mutex := _sync_mutex q;
     _sync_not_empty_waiting := _sync_not_empty_waiting q;
     _sync_not_full_waiting := _sync_not_full_waiting q;
     _async_not_empty_waiting := _async_not_empty_waiting q;
     _async_not_full_waiting := v;
     _finished := _finished q; _closing := _closing q; _pending := _pending q |}.

Definition set_finished (v : bool) (q : Queue) : Queue :=
  {| _kind := _kind q; _loop := _loop q; _maxsize := _maxsize q;
     _queue := _queue q;
     _unfinished_tasks := _unfinished_tasks q; _sync_mutex := _sync_mutex q;
     _sync_not_empty_waiting := _sync_not_empty_waiting q;
     _sync_not_full_waiting := _sync_not_full_waiting q;
     _async_not_empty_waiting := _async_not_empty_waiting q;
     _async_not_full_waiting := _async_not_full_waiting q;
     _finished := v; _closing := _closing q; _pending := _pending q |}.

Definition set_closing (v : bool) (q : Queue) : Queue :=
  {| _kind := _kind q; _loop := _loop q; _maxsize := _maxsize q;
     _queue := _queue q;
     _unfinished_tasks := _unfinished_tasks q; _sync_mutex := _sync_mutex q;
     _sync_not_empty_waiting := _sync_not_empty_waiting q;
     _sync_not_full_waiting := _sync_not_full_waiting q;
     _async_not_empty_waiting := _async_not_empty_waiting q;
     _async_not_full_waiting := _async_not_full_waiting q;
     _finished := _finished q; _closing := v; _pending := _pending q |}.

Definition set_pending (v : list Fut) (q : Queue) : Queue :=
  {| _kind := _kind q; _loop := _loop q; _maxsize := _maxsize q;
     _queue := _queue q;
     _unfinished_tasks := _unfinished_tasks q; _sync_mutex := _sync_mutex q;
     _sync_not_empty_waiting := _sync_not_empty_waiting q;
     _sync_not_full_waiting := _sync_not_full_waiting q;
     _async_not_empty_waiting := _async_not_empty_waiting q;
     _async_not_full_waiting := _async_not_full_waiting q;
     _finished := _finished q; _closing := _closing q; _pending := v |}.

(** [Queue.__init__].  [loop0] is the loop captured by the constructor on
    Python before 3.10, [None] on later versions. *)
Definition __init__ (k : kind) (maxsize : Z) (loop0 : option loop) : Queue :=
  {| _kind := k; _loop := loop0; _maxsize := maxsize; _queue := [];
     _unfinished_tasks := 0; _sync_mutex := false;
     _sync_not_empty_waiting := 0; _sync_not_full_waiting := 0;
     _async_not_empty_waiting := 0; _async_not_full_waiting := 0;
     _finished := true; _closing := false; _pending := [] |}.

(** What a critical section reads from outside the queue object. *)
Record Env := {
  monotonic0 : Q;                (* first reading of [monotonic()] *)
  monotonic1 : Q;                (* second reading, if there is one *)
  running_loop : option loop;    (* [asyncio.get_running_loop()] *)
  loop_closed : bool;            (* [call_soon_threadsafe] raises RuntimeError *)
}.

(** A call parked in a [wait]: what it needs to go on. *)
Inductive kont :=
| K_sync_put (item : T) (endtime : option Q)
| K_sync_get (endtime : option Q)
| K_sync_join
| K_async_put (item : T) (l : loop)
| K_async_get (l : loop)
| K_async_join
| K_wait_closed_sleep          (* in [await asyncio.sleep(0)] *)
| K_wait_closed_pending.       (* in [await asyncio.wait(self._pending)] *)

(** ** The monad of critical sections *)

Inductive result (A : Type) :=
| Done (a : A)      (* returns *)
| Fail (e : exn)    (* raises *)
| Park (k : kont)   (* parks in a wait, to be resumed at [k] *)
| Stuck.            (* blocks in [_sync_mutex.acquire()] on a locked mutex *)
Arguments Done {A} a.
Arguments Fail {A} e.
Arguments Park {A} k.
Arguments Stuck {A}.

Definition M (A : Type) : Type := Queue → result A * Queue * list effect.

Definition ret {A} (a : A) : M A := λ q, (Done a, q, []).
Definition raise {A} (e : exn) : M A := λ q, (Fail e, q, []).
Definition park {A} (k : kont) : M A := λ q, (Park k, q, []).
Definition get_st : M Queue := λ q, (Done q, q, []).
Definition modify (f : Queue → Queue) : M unit := λ q, (Done tt, f q, []).
Definition emit (e : effect) : M unit := λ q, (Done tt, q, [e]).

Definition bind {A B} (m : M A) (f : A → M B) : M B := λ q,
  match m q with
  | (Done a, q', o) => let '(r, q'', o') := f a q' in (r, q'', o ++ o')
  | (Fail e, q', o) => (Fail e, q', o)
  | (Park k, q', o) => (Park k, q', o)
  | (Stuck, q', o) => (Stuck, q', o)
  end.

Notation "x <- m ;; f" := (bind m (λ x, f))
  (at level 100, m at next level, f at level 200, right associativity).
Notation "m ;; f" := (bind m (λ _, f))
  (at level 100, f at level 200, right associativity).

(** [try: m finally: h], for an [h] that does not raise; a parked [m] has
    not left the [try]. *)
Definition on_exit {A} (m : M A) (h : M unit) : M A := λ q,
  match m q with
  | (Done a, q', o) => let '(_, q'', o') := h q' in (Done a, q'', o ++ o')
  | (Fail e, q', o) => let '(_, q'', o') := h q' in (Fail e, q'', o ++ o')
  | r => r
  end.

Definition when (b : bool) (m : M unit) : M unit := if b then m else ret tt.

(** Truth value of a Python int. *)
Definition nonzero (z : Z) : bool := negb (z =? 0)%Z.

Definition Qlt_bool (x y : Q) : bool := negb (Qle_bool y x).

(** [_sync_mutex.acquire()], [_sync_mutex.release()] *)
Definition acquire : M unit := λ q,
  if _sync_mutex q then (Stuck, q, []) else (Done tt, set_sync_mutex true q, []).
Definition release : M unit := modify (set_sync_mutex false).

(** [with self._sync_mutex: m]; the three thread-side conditions are built
    on this mutex, so [with parent._sync_not_full: m] is the same. *)
Definition with_mutex {A} (m : M A) : M A := acquire ;; on_exit m release.

(** [threading.Condition.wait]: gives the mutex back and blocks; it holds
    the mutex again when the call is resumed. *)
Definition wait {A} (k : kont) : M A := release ;; park k.

(** ** class Queue *)

Definition _call_soon_threadsafe (env : Env) (cb : callback) : M unit :=
  q <- get_st ;;
  match _loop q with
  | None => ret tt   (* async API not accessed yet, nothing to notify *)
  | Some _ =>
    if loop_closed env then ret tt   (* RuntimeError swallowed *)
    else emit (Call_soon_threadsafe cb)
  end.

Definition _get_loop (env : Env) : M loop :=
  match running_loop env with
  | None => raise RuntimeError_no_loop
  | Some l =>
    q <- get_st ;;
    match _loop q with
    | None => modify (set_loop (Some l)) ;; ret l
    | Some l' => if decide (l = l') then ret l else raise RuntimeError_other_loop
    end
  end.

Definition close : M unit :=
  with_mutex (
    modify (set_closing true) ;;
    modify (λ q, set_pending (cancel <$> _pending q) q) ;;
    modify (set_finished true) ;;
    emit (Notify_all All_tasks_done)).

Definition wait_closed : M unit :=
  q <- get_st ;;
  if negb (_closing q) then raise RuntimeError_not_closed
  else park K_wait_closed_sleep.

Definition wait_closed_resume_sleep : M unit :=
  q <- get_st ;;
  match _pending q with
  | [] => ret tt
  | _ :: _ => park K_wait_closed_pending
  end.

Definition aclose : M unit := close ;; wait_closed.

Definition closed (q : Queue) : bool :=
  _closing q && bool_decide (_pending q = []).

Definition maxsize (q : Queue) : Z := _maxsize q.

Definition _qsize (q : Queue) : Z := Z.of_nat (length (_queue q)).

(** [_put] and [_get], as overridden by the class of the object. *)
Definition _put (item : T) : M unit :=
  q <- get_st ;;
  match _kind q with
  | Fifo | Lifo => modify (set_queue (_queue q ++ [item]))
  | Priority =>
    match heappush (_queue q) item with
    | Some heap => modify (set_queue heap)
    | None => raise IndexError
    end
  end.

Definition _get : M T :=
  q <- get_st ;;
  match match _kind q with
        | Fifo => popleft (_queue q)
        | Lifo => pop (_queue q)
        | Priority => heappop (_queue q)
        end with
  | Some (item, rest) => modify (set_queue rest) ;; ret item
  | None => raise IndexError
  end.

Definition _put_internal (item : T) : M unit :=
  _put item ;;
  modify (λ q, set_unfinished_tasks (_unfinished_tasks q + 1) q) ;;
  modify (set_finished false).

Definition _notify_sync_not_empty (l : loop) : M unit :=
  emit (Run_in_executor Sync_not_empty_notifier) ;;
  modify (λ q, set_pending
    (_pending q ++ [{| fut_job := Sync_not_empty_notifier; fut_cancelled := false |}]) q).

Definition _notify_sync_not_full (l : loop) : M unit :=
  emit (Run_in_executor Sync_not_full_notifier) ;;
  modify (λ q, set_pending
    (_pending q ++ [{| fut_job := Sync_not_full_notifier; fut_cancelled := false |}]) q).

Definition _make_async_not_empty_notifier : M unit :=
  q <- get_st ;;
  match _loop q with
  | None => raise AssertionError
  | Some _ =>
    emit (Create_task Async_not_empty_notifier) ;;
    modify (λ q, set_pending
      (_pending q ++ [{| fut_job := Async_not_empty_notifier; fut_cancelled := false |}]) q)
  end.

Definition _notify_async_not_empty (env : Env) (threadsafe : bool) : M unit :=
  if threadsafe then _call_soon_threadsafe env Make_async_not_empty_notifier
  else _make_async_not_empty_notifier.

Definition _make_async_not_full_notifier : M unit :=
  q <- get_st ;;
  match _loop q with
  | None => raise AssertionError
  | Some _ =>
    emit (Create_task Async_not_full_notifier) ;;
    modify (λ q, set_pending
      (_pending q ++ [{| fut_job := Async_not_full_notifier; fut_cancelled := false |}]) q)
  end.

Definition _notify_async_not_full (env : Env) (threadsafe : bool) : M unit :=
  if threadsafe then _call_soon_threadsafe env Make_async_not_full_notifier
  else _make_async_not_full_notifier.

Definition _check_closing : M unit :=
  q <- get_st ;;
  if _closing q then raise RuntimeError_closed else ret tt.

(** The bodies of the notification jobs. *)
Definition run_job (j : job) : M unit :=
  match j with
  | Sync_not_empty_notifier => with_mutex (emit (Notify Sync_not_empty))
  | Sync_not_full_notifier => with_mutex (emit (Notify Sync_not_full))
  | Async_not_empty_notifier => emit (Notify Async_not_empty)
  | Async_not_full_notifier => emit (Notify Async_not_full)
  end.

(** ** class _SyncQueueProxy *)

Definition _SyncQueueProxy_maxsize (q : Queue) : Z := _maxsize q.

Definition _SyncQueueProxy_closed (q : Queue) : bool := closed q.

Definition _SyncQueueProxy_task_done (env : Env) : M unit :=
  _check_closing ;;
  with_mutex (
    q <- get_st ;;
    let unfinished := (_unfinished_tasks q - 1)%Z in
    (if (unfinished <=? 0)%Z then
       if (unfinished <? 0)%Z then raise ValueError_task_done
       else emit (Notify_all All_tasks_done) ;;
            _call_soon_threadsafe env Finished_set
     else ret tt) ;;
    modify (set_unfinished_tasks unfinished)).

(** The [while] loop of [join], from its test on. *)
Definition _SyncQueueProxy_join_loop : M unit :=
  q <- get_st ;;
  if nonzero (_unfinished_tasks q) then wait K_sync_join else ret tt.

Definition _SyncQueueProxy_join : M unit :=
  _check_closing ;;
  with_mutex _SyncQueueProxy_join_loop.

(** [join] coming back from [_all_tasks_done.wait()]. *)
Definition _SyncQueueProxy_join_resume : M unit :=
  with_mutex (_check_closing ;; _SyncQueueProxy_join_loop).

Definition _SyncQueueProxy_qsize (q : Queue) : Z := _qsize q.

Definition _SyncQueueProxy_unfinished_tasks (q : Queue) : Z :=
  _unfinished_tasks q.

Definition _SyncQueueProxy_empty (q : Queue) : bool := negb (nonzero (_qsize q)).

Definition _SyncQueueProxy_full (q : Queue) : bool :=
  (0 <? _maxsize q)%Z && (_maxsize q <=? _qsize q)%Z.

(** [put], from [parent._put_internal(item)] on. *)
Definition _SyncQueueProxy_put_commit (env : Env) (item : T) : M unit :=
  _put_internal item ;;
  q <- get_st ;;
  when (nonzero (_sync_not_empty_waiting q)) (emit (Notify Sync_not_empty)) ;;
  when (nonzero (_async_not_empty_waiting q))
       (_notify_async_not_empty env true).

(** The two [while] loops of [put], from their test on: [endtime] is
    [None] in the loop without timeout; [now] is what [monotonic()]
    returns in this turn of the loop. *)
Definition _SyncQueueProxy_put_loop (env : Env) (item : T)
    (endtime : option Q) (now : Q) : M unit :=
  q <- get_st ;;
  if (_maxsize q <=? _qsize q)%Z then
    match endtime with
    | None =>
      modify (λ q, set_sync_not_full_waiting (_sync_not_full_waiting q + 1) q) ;;
      wait (K_sync_put item None)
    | Some endtime =>
      let remaining := (endtime - now)%Q in
      if Qle_bool remaining 0 then raise SyncQueueFull
      else
        modify (λ q, set_sync_not_full_waiting (_sync_not_full_waiting q + 1) q) ;;
        wait (K_sync_put item (Some endtime))
    end
  else _SyncQueueProxy_put_commit env item.

Definition _SyncQueueProxy_put (env : Env) (item : T) (block : bool)
    (timeout : option Q) : M unit :=
  _check_closing ;;
  with_mutex (
    q <- get_st ;;
    if (0 <? _maxsize q)%Z then
      if negb block then
        if (_maxsize q <=? _qsize q)%Z then raise SyncQueueFull
        else _SyncQueueProxy_put_commit env item
      else
        match timeout with
        | None => _SyncQueueProxy_put_loop env item None (monotonic0 env)
        | Some timeout =>
          if Qlt_bool timeout 0 then raise ValueError_timeout
          else
            let endtime := (monotonic0 env + timeout)%Q in
            _SyncQueueProxy_put_loop env item (Some endtime) (monotonic1 env)
        end
    else _SyncQueueProxy_put_commit env item).

(** [put] coming back from [_sync_not_full.wait]: the [finally] clause,
    then the loop again. *)
Definition _SyncQueueProxy_put_resume (env : Env) (item : T)
    (endtime : option Q) : M unit :=
  with_mutex (
    modify (λ q, set_sync_not_full_waiting (_sync_not_full_waiting q - 1) q) ;;
    _SyncQueueProxy_put_loop env item endtime (monotonic0 env)).

(** [get], from [item = parent._get()] on. *)
Definition _SyncQueueProxy_get_commit (env : Env) : M T :=
  item <- _get ;;
  q <- get_st ;;
  when (nonzero (_sync_not_full_waiting q)) (emit (Notify Sync_not_full)) ;;
  when (nonzero (_async_not_full_waiting q))
       (_notify_async_not_full env true) ;;
  ret item.

Definition _SyncQueueProxy_get_loop (env : Env) (endtime : option Q)
    (now : Q) : M T :=
  q <- get_st ;;
  if negb (nonzero (_qsize q)) then
    match endtime with
    | None =>
      modify (λ q, set_sync_not_empty_waiting (_sync_not_empty_waiting q + 1) q) ;;
      wait (K_sync_get None)
    | Some endtime =>
      let remaining := (endtime - now)%Q in
      if Qle_bool remaining 0 then raise SyncQueueEmpty
      else
        modify (λ q, set_sync_not_empty_waiting (_sync_not_empty_waiting q + 1) q) ;;
        wait (K_sync_get (Some endtime))
    end
  else _SyncQueueProxy_get_commit env.

Definition _SyncQueueProxy_get (env : Env) (block : bool)
    (timeout : option Q) : M T :=
  _check_closing ;;
  with_mutex (
    q <- get_st ;;
    if negb block then
      if negb (nonzero (_qsize q)) then raise SyncQueueEmpty
      else _SyncQueueProxy_get_commit env
    else
      match timeout with
      | None => _SyncQueueProxy_get_loop env None (monotonic0 env)
      | Some timeout =>
        if Qlt_bool timeout 0 then raise ValueError_timeout
        else
          let endtime := (monotonic0 env + timeout)%Q in
          _SyncQueueProxy_get_loop env (Some endtime) (monotonic1 env)
      end).

Definition _SyncQueueProxy_get_resume (env : Env) (endtime : option Q) : M T :=
  with_mutex (
    modify (λ q, set_sync_not_empty_waiting (_sync_not_empty_waiting q - 1) q) ;;
    _SyncQueueProxy_get_loop env endtime (monotonic0 env)).

Definition _SyncQueueProxy_put_nowait (env : Env) (item : T) : M unit :=
  _SyncQueueProxy_put env item false None.

Definition _SyncQueueProxy_get_nowait (env : Env) : M T :=
  _SyncQueueProxy_get env false None.

(** ** class _AsyncQueueProxy

    The task-side [asyncio.Lock] behind [_async_not_empty] and
    [_async_not_full] is held only between two suspension points of one
    task, so [async with] never suspends on it; it is not part of the
    state. *)

Definition _AsyncQueueProxy_closed (q : Queue) : bool := closed q.

Definition _AsyncQueueProxy_qsize (q : Queue) : Z := _qsize q.

Definition _AsyncQueueProxy_unfinished_tasks (q : Queue) : Z :=
  _unfinished_tasks q.

Definition _AsyncQueueProxy_maxsize (q : Queue) : Z := _maxsize q.

Definition _AsyncQueueProxy_empty (q : Queue) : bool :=
  (_AsyncQueueProxy_qsize q =? 0)%Z.

Definition _AsyncQueueProxy_full (q : Queue) : bool :=
  if (_maxsize q <=? 0)%Z then false else (_maxsize q <=? _qsize q)%Z.

(** [put], from [parent._put_internal(item)] on. *)
Definition _AsyncQueueProxy_put_commit (l : loop) (item : T) : M unit :=
  _put_internal item ;;
  q <- get_st ;;
  when (nonzero (_async_not_empty_waiting q)) (emit (Notify Async_not_empty)) ;;
  when (nonzero (_sync_not_empty_waiting q)) (_notify_sync_not_empty l).

(** One turn of [while do_wait], and what follows the loop. *)
Definition _AsyncQueueProxy_put_loop (l : loop) (item : T) : M unit :=
  q <- get_st ;;
  let do_wait := (_maxsize q <=? _qsize q)%Z in
  if do_wait then
    release ;;
    modify (λ q, set_async_not_full_waiting (_async_not_full_waiting q + 1) q) ;;
    park (K_async_put item l)
  else _AsyncQueueProxy_put_commit l item.

(** [_get_loop()] runs between [acquire()] and [try]: if it raises, the
    mutex stays locked. *)
Definition _AsyncQueueProxy_put (env : Env) (item : T) : M unit :=
  _check_closing ;;
  acquire ;;
  l <- _get_loop env ;;
  on_exit
    (q <- get_st ;;
     if (0 <? _maxsize q)%Z then _AsyncQueueProxy_put_loop l item
     else _AsyncQueueProxy_put_commit l item)
    release.

(** [put] coming back from [await parent._async_not_full.wait()]. *)
Definition _AsyncQueueProxy_put_resume (item : T) (l : loop) : M unit :=
  modify (λ q, set_async_not_full_waiting (_async_not_full_waiting q - 1) q) ;;
  acquire ;;
  on_exit (_AsyncQueueProxy_put_loop l item) release.

(** The wait of [put] cancelled: the [finally] clauses, with [locked]
    false. *)
Definition _AsyncQueueProxy_put_cancel : M unit :=
  modify (λ q, set_async_not_full_waiting (_async_not_full_waiting q - 1) q) ;;
  raise CancelledError.

Definition _AsyncQueueProxy_put_nowait (env : Env) (item : T) : M unit :=
  _check_closing ;;
  with_mutex (
    l <- _get_loop env ;;
    q <- get_st ;;
    (if (0 <? _maxsize q)%Z then
       if (_maxsize q <=? _qsize q)%Z then raise AsyncQueueFull else ret tt
     else ret tt) ;;
    _put_internal item ;;
    q <- get_st ;;
    when (nonzero (_async_not_empty_waiting q))
         (_notify_async_not_empty env false) ;;
    when (nonzero (_sync_not_empty_waiting q)) (_notify_sync_not_empty l)).

Definition _AsyncQueueProxy_get_commit (l : loop) : M T :=
  item <- _get ;;
  q <- get_st ;;
  when (nonzero (_async_not_full_waiting q)) (emit (Notify Async_not_full)) ;;
  when (nonzero (_sync_not_full_waiting q)) (_notify_sync_not_full l) ;;
  ret item.

Definition _AsyncQueueProxy_get_loop (l : loop) : M T :=
  q <- get_st ;;
  let do_wait := (_qsize q =? 0)%Z in
  if do_wait then
    release ;;
    modify (λ q, set_async_not_empty_waiting (_async_not_empty_waiting q + 1) q) ;;
    park (K_async_get l)
  else _AsyncQueueProxy_get_commit l.

Definition _AsyncQueueProxy_get (env : Env) : M T :=
  _check_closing ;;
  acquire ;;
  l <- _get_loop env ;;
  on_exit (_AsyncQueueProxy_get_loop l) release.

Definition _AsyncQueueProxy_get_resume (l : loop) : M T :=
  modify (λ q, set_async_not_empty_waiting (_async_not_empty_waiting q - 1) q) ;;
  acquire ;;
  on_exit (_AsyncQueueProxy_get_loop l) release.

Definition _AsyncQueueProxy_get_cancel : M T :=
  modify (λ q, set_async_not_empty_waiting (_async_not_empty_waiting q - 1) q) ;;
  raise CancelledError.

Definition _AsyncQueueProxy_get_nowait (env : Env) : M T :=
  _check_closing ;;
  with_mutex (
    q <- get_st ;;
    (if (_qsize q =? 0)%Z then raise AsyncQueueEmpty else ret tt) ;;
    l <- _get_loop env ;;
    item <- _get ;;
    q <- get_st ;;
    when (nonzero (_async_not_full_waiting q))
         (_notify_async_not_full env false) ;;
    when (nonzero (_sync_not_full_waiting q)) (_notify_sync_not_full l) ;;
    ret item).

Definition _AsyncQueueProxy_task_done : M unit :=
  _check_closing ;;
  with_mutex (
    q <- get_st ;;
    if (_unfinished_tasks q <=? 0)%Z then raise ValueError_task_done
    else
      modify (λ q, set_unfinished_tasks (_unfinished_tasks q - 1) q) ;;
      q <- get_st ;;
      when (_unfinished_tasks q =? 0)%Z
           (modify (set_finished true) ;; emit (Notify_all All_tasks_done))).

(** One turn of [while True] in [join]: the call and every return from
    [await parent._finished.wait()] start here. *)
Definition _AsyncQueueProxy_join : M unit :=
  done <- with_mutex (
    _check_closing ;;
    q <- get_st ;;
    ret (_unfinished_tasks q =? 0)%Z) ;;
  if done : bool then ret tt else park K_async_join.

(** ** Executions

    An execution is a sequence of actions on one queue object: calls of
    its methods by threads and tasks, parked calls going on, and the event
    loop and the executor running what was handed to them. *)

Inductive value :=
| VNone
| VItem (item : T)
| VInt (z : Z)
| VBool (b : bool).

Inductive action :=
(* Queue *)
| Close
| Wait_closed
| Aclose
| Closed
| Maxsize
(* Queue.sync_q *)
| Sync_maxsize
| Sync_closed
| Sync_task_done
| Sync_join
| Sync_qsize
| Sync_unfinished_tasks
| Sync_empty
| Sync_full
| Sync_put (item : T) (block : bool) (timeout : option Q)
| Sync_get (block : bool) (timeout : option Q)
| Sync_put_nowait (item : T)
| Sync_get_nowait
(* Queue.async_q *)
| Async_closed
| Async_qsize
| Async_unfinished_tasks
| Async_maxsize
| Async_empty
| Async_full
| Async_put (item : T)
| Async_put_nowait (item : T)
| Async_get
| Async_get_nowait
| Async_task_done
| Async_join
(* a parked call goes on, or its wait is cancelled *)
| Resume (k : kont)
| Cancel (k : kont)
(* the event loop runs a callback; a job of [_pending] runs; the done
   callback [_pending.remove] of the future at index [i] runs *)
| Loop_callback (cb : callback)
| Job_run (i : nat)
| Done_callback (i : nat).

Definition returning {A} (f : A → value) (m : M A) : M value :=
  a <- m ;; ret (f a).

Definition reading {A} (f : A → value) (g : Queue → A) : M value :=
  q <- get_st ;; ret (f (g q)).

(** A parked call goes on. *)
Definition resume (env : Env) (k : kont) : M value :=
  match k with
  | K_sync_put item endtime =>
    returning (λ _, VNone) (_SyncQueueProxy_put_resume env item endtime)
  | K_sync_get endtime => returning VItem (_SyncQueueProxy_get_resume env endtime)
  | K_sync_join => returning (λ _, VNone) _SyncQueueProxy_join_resume
  | K_async_put item l => returning (λ _, VNone) (_AsyncQueueProxy_put_resume item l)
  | K_async_get l => returning VItem (_AsyncQueueProxy_get_resume l)
  | K_async_join => returning (λ _, VNone) _AsyncQueueProxy_join
  | K_wait_closed_sleep => returning (λ _, VNone) wait_closed_resume_sleep
  | K_wait_closed_pending => ret VNone
  end.

(** The wait of a parked task is cancelled; a thread cannot be
    cancelled, nothing happens to it. *)
Definition cancel_wait (k : kont) : M value :=
  match k with
  | K_async_put _ _ => returning (λ _, VNone) _AsyncQueueProxy_put_cancel
  | K_async_get _ => returning VItem _AsyncQueueProxy_get_cancel
  | K_async_join | K_wait_closed_sleep | K_wait_closed_pending =>
    raise CancelledError
  | K_sync_put _ _ | K_sync_get _ | K_sync_join => ret VNone
  end.

Definition loop_callback (cb : callback) : M unit :=
  match cb with
  | Make_async_not_empty_notifier => _make_async_not_empty_notifier
  | Make_async_not_full_notifier => _make_async_not_full_notifier
  | Finished_set => modify (set_finished true)
  end.

Definition job_run (i : nat) : M unit :=
  q <- get_st ;;
  match _pending q !! i with
  | Some f => run_job (fut_job f)
  | None => ret tt
  end.

Definition done_callback (i : nat) : M unit :=
  modify (λ q, set_pending (delete i (_pending q)) q).

Definition exec (env : Env) (a : action) : M value :=
  match a with
  | Close => returning (λ _, VNone) close
  | Wait_closed => returning (λ _, VNone) wait_closed
  | Aclose => returning (λ _, VNone) aclose
  | Closed => reading VBool closed
  | Maxsize => reading VInt maxsize
  | Sync_maxsize => reading VInt _SyncQueueProxy_maxsize
  | Sync_closed => reading VBool _SyncQueueProxy_closed
  | Sync_task_done => returning (λ _, VNone) (_SyncQueueProxy_task_done env)
  | Sync_join => returning (λ _, VNone) _SyncQueueProxy_join
  | Sync_qsize => reading VInt _SyncQueueProxy_qsize
  | Sync_unfinished_tasks => reading VInt _SyncQueueProxy_unfinished_tasks
  | Sync_empty => reading VBool _SyncQueueProxy_empty
  | Sync_full => reading VBool _SyncQueueProxy_full
  | Sync_put item block timeout =>
    returning (λ _, VNone) (_SyncQueueProxy_put env item block timeout)
  | Sync_get block timeout => returning VItem (_SyncQueueProxy_get env block timeout)
  | Sync_put_nowait item => returning (λ _, VNone) (_SyncQueueProxy_put_nowait env item)
  | Sync_get_nowait => returning VItem (_SyncQueueProxy_get_nowait env)
  | Async_closed => reading VBool _AsyncQueueProxy_closed
  | Async_qsize => reading VInt _AsyncQueueProxy_qsize
  | Async_unfinished_tasks => reading VInt _AsyncQueueProxy_unfinished_tasks
  | Async_maxsize => reading VInt _AsyncQueueProxy_maxsize
  | Async_empty => reading VBool _AsyncQueueProxy_empty
  | Async_full => reading VBool _AsyncQueueProxy_full
  | Async_put item => returning (λ _, VNone) (_AsyncQueueProxy_put env item)
  | Async_put_nowait item => returning (λ _, VNone) (_AsyncQueueProxy_put_nowait env item)
  | Async_get => returning VItem (_AsyncQueueProxy_get env)
  | Async_get_nowait => returning VItem (_AsyncQueueProxy_get_nowait env)
  | Async_task_done => returning (λ _, VNone) _AsyncQueueProxy_task_done
  | Async_join => returning (λ _, VNone) _AsyncQueueProxy_join
  | Resume k => resume env k
  | Cancel k => cancel_wait k
  | Loop_callback cb => returning (λ _, VNone) (loop_callback cb)
  | Job_run i => returning (λ _, VNone) (job_run i)
  | Done_callback i => returning (λ _, VNone) (done_callback i)
  end.

(** The item an action is putting, if it is a [put]. *)
Definition put_item (a : action) : option T :=
  match a with
  | Sync_put item _ _ | Sync_put_nowait item
  | Async_put item | Async_put_nowait item
  | Resume (K_sync_put item _) | Resume (K_async_put item _) => Some item
  | _ => None
  end.

Definition is_get (a : action) : bool :=
  match a with
  | Sync_get _ _ | Sync_get_nowait | Async_get | Async_get_nowait
  | Resume (K_sync_get _) | Resume (K_async_get _) => true
  | _ => false
  end.

(** The state, the result and the effects of an action. *)
Definition st {A} (x : result A * Queue * list effect) : Queue := x.1.2.
Definition res {A} (x : result A * Queue * list effect) : result A := x.1.1.
Definition out {A} (x : result A * Queue * list effect) : list effect := x.2.

(** The items that went in and came out along an execution, in order. *)
Definition put_of (a : action) (r : result value) : list T :=
  match r, put_item a with
  | Done _, Some item => [item]
  | _, _ => []
  end.

Definition got_of (a : action) (r : result value) : list T :=
  match r with
  | Done (VItem item) => [item]
  | _ => []
  end.

Fixpoint run (acts : list (Env * action)) (q : Queue) : Queue :=
  match acts with
  | [] => q
  | (env, a) :: acts => run acts (st (exec env a q))
  end.

Fixpoint puts (acts : list (Env * action)) (q : Queue) : list T :=
  match acts with
  | [] => []
  | (env, a) :: acts =>
    put_of a (res (exec env a q)) ++ puts acts (st (exec env a q))
  end.

Fixpoint gets (acts : list (Env * action)) (q : Queue) : list T :=
  match acts with
  | [] => []
  | (env, a) :: acts =>
    got_of a (res (exec env a q)) ++ gets acts (st (exec env a q))
  end.

(** A state some execution of a fresh queue object leads to. *)
Definition reachable (q : Queue) : Prop :=
  ∃ k maxsize loop0 acts, q = run acts (__init__ k maxsize loop0).

(** ** Predicates of the proofs *)

Definition le (x y : T) : Prop := lt y x = false.

(** A binary heap in a list: no item is smaller than its parent. *)
Definition heap_ok (h : list T) : Prop :=
  ∀ i x p, 0 < i → h !! i = Some x → h !! ((i - 1) / 2) = Some p → le p x.

(** A heap but for the item at [pos], which stands for a hole. *)
Definition hole_ok (h : list T) (pos : nat) : Prop :=
  (∀ i x p, 0 < i → i ≠ pos → (i - 1) / 2 ≠ pos →
     h !! i = Some x → h !! ((i - 1) / 2) = Some p → le p x) ∧
  (∀ c x g, 0 < pos → 0 < c → (c - 1) / 2 = pos →
     h !! c = Some x → h !! ((pos - 1) / 2) = Some g → le g x).

(** [x] may sit at [pos]: the children of [pos] are not smaller. *)
Definition above_ok (h : list T) (pos : nat) (x : T) : Prop :=
  ∀ c y, 0 < c → (c - 1) / 2 = pos → h !! c = Some y → le x y.

(** The buffer of a well-formed queue object. *)
Definition buffer_ok (q : Queue) : Prop :=
  _kind q = Priority → heap_ok (_queue q).

(** Capacity is respected. *)
Definition bounded (q : Queue) : Prop :=
  (0 < _maxsize q → _qsize q ≤ _maxsize q)%Z.

(** What the strategy of the class does to the buffer. *)
Definition put_buffer (k : kind) (buf : list T) (item : T) : option (list T) :=
  match k with
  | Fifo | Lifo => Some (buf ++ [item])
  | Priority => heappush buf item
  end.

Definition get_buffer (k : kind) (buf : list T) : option (T * list T) :=
  match k with
  | Fifo => popleft buf
  | Lifo => pop buf
  | Priority => heappop buf
  end.

(** An action commits at most one item, by [_put_internal] or by [_get];
    the record of what it does to the buffer and to the counters. *)
Definition commit_spec (a : action) (q : Queue)
    (x : result value * Queue * list effect) : Prop :=
  match put_of a (res x), got_of a (res x) with
  | [], [] =>
    _queue (st x) = _queue q ∧
    (_unfinished_tasks (st x) = _unfinished_tasks q ∨
     _unfinished_tasks (st x) = _unfinished_tasks q - 1 ∧
     0 ≤ _unfinished_tasks (st x))%Z
  | [item], [] =>
    put_buffer (_kind q) (_queue q) item = Some (_queue (st x)) ∧
    (0 < _maxsize q → _qsize q < _maxsize q)%Z ∧
    _unfinished_tasks (st x) = (_unfinished_tasks q + 1)%Z ∧
    _finished (st x) = false ∧
    _closing (st x) = _closing q
  | [], [item] =>
    get_buffer (_kind q) (_queue q) = Some (item, _queue (st x)) ∧
    _unfinished_tasks (st x) = _unfinished_tasks q ∧
    _finished (st x) = _finished q ∧
    _closing (st x) = _closing q
  | _, _ => False
  end.

(** The order a heap needs: [<] is asymmetric, and so is "not smaller". *)
Definition strict_weak_order : Prop :=
  (∀ x y, lt x y = true → lt y x = false) ∧
  (∀ x y z, lt x y = false → lt y z = false → lt x z = false).

(** ** Tables for the statements about notifications and closing *)

(** For an action that commits a [put] or a [get]: the waiter counter of
    the caller's own domain that the commit reads, and the one of the
    other domain. *)
Definition same_waiting (a : action) (q : Queue) : Z :=
  match a with
  | Sync_put _ _ _ | Sync_put_nowait _ | Resume (K_sync_put _ _) =>
    _sync_not_empty_waiting q
  | Sync_get _ _ | Sync_get_nowait | Resume (K_sync_get _) =>
    _sync_not_full_waiting q
  | Async_put _ | Async_put_nowait _ | Resume (K_async_put _ _) =>
    _async_not_empty_waiting q
  | Async_get | Async_get_nowait | Resume (K_async_get _) =>
    _async_not_full_waiting q
  | _ => 0
  end.

Definition other_waiting (a : action) (q : Queue) : Z :=
  match a with
  | Sync_put _ _ _ | Sync_put_nowait _ | Resume (K_sync_put _ _) =>
    _async_not_empty_waiting q
  | Sync_get _ _ | Sync_get_nowait | Resume (K_sync_get _) =>
    _async_not_full_waiting q
  | Async_put _ | Async_put_nowait _ | Resume (K_async_put _ _) =>
    _sync_not_empty_waiting q
  | Async_get | Async_get_nowait | Resume (K_async_get _) =>
    _sync_not_full_waiting q
  | _ => 0
  end.

(** The call that notifies the caller's own domain: [notify()] on its
    condition, or, in [put_nowait] and [get_nowait] of the task facade,
    the task that will call it. *)
Definition same_notice (a : action) : option effect :=
  match a with
  | Sync_put _ _ _ | Sync_put_nowait _ | Resume (K_sync_put _ _) =>
    Some (Notify Sync_not_empty)
  | Sync_get _ _ | Sync_get_nowait | Resume (K_sync_get _) =>
    Some (Notify Sync_not_full)
  | Async_put _ | Resume (K_async_put _ _) => Some (Notify Async_not_empty)
  | Async_put_nowait _ => Some (Create_task Async_not_empty_notifier)
  | Async_get | Resume (K_async_get _) => Some (Notify Async_not_full)
  | Async_get_nowait => Some (Create_task Async_not_full_notifier)
  | _ => None
  end.

(** The call that ships the notification to the other domain. *)
Definition cross_notice (a : action) : option effect :=
  match a with
  | Sync_put _ _ _ | Sync_put_nowait _ | Resume (K_sync_put _ _) =>
    Some (Call_soon_threadsafe Make_async_not_empty_notifier)
  | Sync_get _ _ | Sync_get_nowait | Resume (K_sync_get _) =>
    Some (Call_soon_threadsafe Make_async_not_full_notifier)
  | Async_put _ | Async_put_nowait _ | Resume (K_async_put _ _) =>
    Some (Run_in_executor Sync_not_empty_notifier)
  | Async_get | Async_get_nowait | Resume (K_async_get _) =>
    Some (Run_in_executor Sync_not_full_notifier)
  | _ => None
  end.

(** The action runs on a thread, through the blocking facade. *)
Definition thread_side (a : action) : bool :=
  match a with
  | Sync_put _ _ _ | Sync_put_nowait _ | Resume (K_sync_put _ _)
  | Sync_get _ _ | Sync_get_nowait | Resume (K_sync_get _) => true
  | _ => false
  end.

(** The calls that start with [_check_closing()]. *)
Definition checks_closing (a : action) : bool :=
  match a with
  | Sync_task_done | Sync_join | Sync_put _ _ _ | Sync_get _ _
  | Sync_put_nowait _ | Sync_get_nowait
  | Async_put _ | Async_put_nowait _ | Async_get | Async_get_nowait
  | Async_task_done | Async_join => true
  | _ => false
  end.

(** The properties and the size queries of the two facades. *)
Definition is_query (a : action) : bool :=
  match a with
  | Closed | Maxsize
  | Sync_maxsize | Sync_closed | Sync_qsize | Sync_unfinished_tasks
  | Sync_empty | Sync_full
  | Async_closed | Async_qsize | Async_unfinished_tasks | Async_maxsize
  | Async_empty | Async_full => true
  | _ => false
  end.

(** ** Tables for the statements about bookkeeping *)

(** The jobs a critical section hands to the executor or makes into
    tasks. *)
Definition is_job (e : effect) : bool :=
  match e with
  | Run_in_executor _ | Create_task _ => true
  | _ => false
  end.

Fixpoint scheduled (o : list effect) : nat :=
  match o with
  | [] => 0
  | e :: o => (if is_job e then 1 else 0) + scheduled o
  end.

(** The futures a done callback takes out of [_pending]. *)
Definition retired (a : action) (q : Queue) : nat :=
  match a with
  | Done_callback i => if i <? length (_pending q) then 1 else 0
  | _ => 0
  end.

Definition is_task_done (a : action) : bool :=
  match a with
  | Sync_task_done | Async_task_done => true
  | _ => false
  end.

(** The completion a [task_done()] that returns acknowledges. *)
Definition done_of (a : action) (r : result value) : list unit :=
  match r with
  | Done _ => if is_task_done a then [()] else []
  | _ => []
  end.

Fixpoint dones (acts : list (Env * action)) (q : Queue) : list unit :=
  match acts with
  | [] => []
  | (env, a) :: acts =>
    done_of a (res (exec env a q)) ++ dones acts (st (exec env a q))
  end.

Definition is_close (a : action) : bool :=
  match a with
  | Close | Aclose => true
  | _ => false
  end.

(** The calls that leave [_sync_mutex] locked: the suspending [put] and
    [get] when [_get_loop()] raises. *)
Definition leaks_mutex (a : action) (r : result value) : bool :=
  match a, r with
  | (Async_put _ | Async_get),
    Fail (RuntimeError_other_loop | RuntimeError_no_loop) => true
  | _, _ => false
  end.

(** The calls that take the mutex first thing after the test of the
    closing flag. *)
Definition takes_mutex (a : action) : bool :=
  match a with
  | Close | Aclose
  | Sync_task_done | Sync_join | Sync_put _ _ _ | Sync_get _ _
  | Sync_put_nowait _ | Sync_get_nowait
  | Async_put _ | Async_put_nowait _ | Async_get | Async_get_nowait
  | Async_task_done | Async_join => true
  | _ => false
  end.

(** * Proofs *)

(** ** The heap of [heapq] *)

Lemma parent_cases c pos :
  0 < c → (c - 1) / 2 = pos → c = 2 * pos + 1 ∨ c = 2 * pos + 1 + 1.
Proof. intros. div_lia. Qed.

Lemma pop_snoc l x : pop (l ++ [x]) = Some (x, l).
Proof.
  unfold pop. rewrite last_snoc. simpl. rewrite length_app. simpl.
  replace (length l + 1 - 1) with (length l) by lia.
  by rewrite take_app_length.
Qed.

Lemma pop_Some l x r : pop l = Some (x, r) → l = r ++ [x].
Proof.
  destruct l as [|a l] using rev_ind; [done|].
  rewrite pop_snoc. by intros [= -> ->].
Qed.

Lemma insert_cons_perm (l : list T) i a x :
  l !! i = Some a → a :: <[i:=x]> l ≡ₚ x :: l.
Proof.
  revert i. induction l as [|b l IH]; intros [|i] H; simplify_eq/=.
  - apply perm_swap.
  - rewrite perm_swap. rewrite (IH _ H). apply perm_swap.
Qed.

Lemma insert_move_perm (h : list T) pos c a hc x :
  pos ≠ c → h !! pos = Some a → h !! c = Some hc →
  <[c:=x]> (<[pos:=hc]> h) ≡ₚ <[pos:=x]> h.
Proof.
  intros Hne Hp Hc.
  assert (H2 : <[pos:=hc]> h !! c = Some hc) by by rewrite list_lookup_insert_ne.
  pose proof (insert_cons_perm _ _ _ x H2) as E1.
  pose proof (insert_cons_perm _ _ _ hc Hp) as E2.
  pose proof (insert_cons_perm _ _ _ x Hp) as E3.
  apply (Permutation_cons_inv (a:=hc)), (Permutation_cons_inv (a:=a)).
  rewrite (perm_swap hc a (<[pos:=x]> h)), E3.
  rewrite E1, (perm_swap x a), E2.
  by rewrite (perm_swap x hc).
Qed.

Lemma _siftdown_loop_perm fuel : ∀ h startpos pos x h',
  pos < length h → _siftdown_loop fuel h startpos pos x = Some h' →
  h' ≡ₚ <[pos:=x]> h.
Proof.
  induction fuel as [|fuel IH]; intros h startpos pos x h' Hlen E; [done|].
  cbn [_siftdown_loop] in E.
  destruct (Nat.ltb_spec startpos pos) as [Hpos|Hpos]; [|by simplify_eq].
  destruct (h !! ((pos - 1) / 2)) as [p|] eqn:Hp; [|done].
  cbn [mbind option_bind] in E. destruct (lt x p); [|by simplify_eq].
  destruct (lookup_lt_is_Some_2 h pos) as [a Hpa]; [done|].
  apply IH in E; [|rewrite length_insert; div_lia].
  rewrite E. apply (insert_move_perm h pos _ a p); [div_lia|done..].
Qed.

Lemma _siftup_loop_perm fuel : ∀ h pos h' pos',
  pos < length h → _siftup_loop fuel h (length h) pos = Some (h', pos') →
  length h' = length h ∧ pos' < length h ∧ ∀ x, <[pos':=x]> h' ≡ₚ <[pos:=x]> h.
Proof.
  induction fuel as [|fuel IH]; intros h pos h' pos' Hlen E; [done|].
  cbn [_siftup_loop] in E.
  destruct (Nat.ltb_spec (2 * pos + 1) (length h)) as [Hl|Hl]; [|by simplify_eq].
  destruct (if 2 * pos + 1 + 1 <? length h then _ else _) as [c|] eqn:Hc; [|done].
  cbn [mbind option_bind] in E.
  destruct (h !! c) as [hc|] eqn:Hhc; [|done]. cbn [mbind option_bind] in E.
  assert (pos < c).
  { destruct (2 * pos + 1 + 1 <? length h); [|simplify_eq; lia].
    destruct (h !! (2 * pos + 1)) as [l|]; [|done].
    destruct (h !! (2 * pos + 1 + 1)) as [r|]; [|done].
    cbn [mbind option_bind] in Hc. destruct (negb (lt l r)); simplify_eq; lia. }
  destruct (lookup_lt_is_Some_2 h pos) as [a Hpa]; [done|].
  pose proof (lookup_lt_Some _ _ _ Hhc).
  rewrite <- (length_insert h pos hc) in E at 1.
  apply IH in E as (E1 & E2 & E3); [|by rewrite length_insert].
  rewrite length_insert in E1, E2. split_and!; [done..|].
  intros x. rewrite E3. apply (insert_move_perm h pos c a hc); [lia|done..].
Qed.

Lemma heappush_perm h x h' : heappush h x = Some h' → h' ≡ₚ x :: h.
Proof.
  unfold heappush, _siftdown. rewrite length_app. cbn [length].
  replace (length h + 1 - 1) with (length h) by lia.
  rewrite lookup_app_r, Nat.sub_diag by lia.
  cbn [lookup list_lookup mbind option_bind]. intros E.
  apply _siftdown_loop_perm in E; [|rewrite length_app; simpl; lia].
  rewrite E, insert_app_r_alt, Nat.sub_diag by lia. simpl.
  by rewrite <- Permutation_cons_append.
Qed.

Lemma heappop_perm h r h' : heappop h = Some (r, h') → r :: h' ≡ₚ h.
Proof.
  unfold heappop. destruct (pop h) as [[a h0]|] eqn:Hpop; [|done].
  apply pop_Some in Hpop as ->. cbn [mbind option_bind].
  destruct h0 as [|b h1]; [by intros [= <- <-]|].
  cbn [lookup list_lookup insert list_insert mbind option_bind].
  unfold _siftup. cbn [lookup list_lookup mbind option_bind].
  destruct (_siftup_loop _ _ _ _) as [[h2 pos]|] eqn:E; [|done].
  cbn [mbind option_bind]. unfold _siftdown.
  apply _siftup_loop_perm in E as (E1 & E2 & E3); [|simpl; lia].
  rewrite list_lookup_insert_eq by lia. cbn [mbind option_bind].
  destruct (_siftdown_loop _ _ _ _ _) as [h3|] eqn:E'; [|done].
  cbn [mbind option_bind]. intros [= <- <-].
  apply _siftdown_loop_perm in E'; [|rewrite length_insert; lia].
  rewrite E', list_insert_insert_eq, (E3 a). simpl.
  constructor. apply Permutation_cons_append.
Qed.

(** The fuel is enough: the heap functions return, whatever [<] is. *)
Lemma _siftdown_loop_total fuel : ∀ h startpos pos x,
  pos < fuel → pos < length h →
  is_Some (_siftdown_loop fuel h startpos pos x).
Proof.
  induction fuel as [|fuel IH]; intros h startpos pos x Hf Hlen; [lia|].
  cbn [_siftdown_loop].
  destruct (Nat.ltb_spec startpos pos) as [Hpos|Hpos]; [|done].
  destruct (lookup_lt_is_Some_2 h ((pos - 1) / 2)) as [p Hp]; [div_lia|].
  rewrite Hp. cbn [mbind option_bind]. destruct (lt x p); [|done].
  apply IH; [div_lia|]. rewrite length_insert. div_lia.
Qed.

Lemma _siftup_loop_total fuel : ∀ h pos,
  length h < fuel + pos → pos < length h →
  is_Some (_siftup_loop fuel h (length h) pos).
Proof.
  induction fuel as [|fuel IH]; intros h pos Hf Hlen; [lia|].
  cbn [_siftup_loop].
  destruct (Nat.ltb_spec (2 * pos + 1) (length h)) as [Hl|Hl]; [|done].
  destruct (lookup_lt_is_Some_2 h (2 * pos + 1)) as [l Hlv]; [done|].
  assert (∃ c hc, (if 2 * pos + 1 + 1 <? length h then
            l ← h !! (2 * pos + 1); r ← h !! (2 * pos + 1 + 1);
            Some (if negb (lt l r) then 2 * pos + 1 + 1 else 2 * pos + 1)
          else Some (2 * pos + 1)) = Some c ∧ h !! c = Some hc ∧ pos < c)
    as (c & hc & -> & Hc & Hposc).
  { destruct (Nat.ltb_spec (2 * pos + 1 + 1) (length h)) as [Hr|Hr].
    - destruct (lookup_lt_is_Some_2 h (2 * pos + 1 + 1)) as [r Hrv]; [done|].
      rewrite Hlv, Hrv. cbn [mbind option_bind].
      destruct (negb (lt l r)); eexists _, _; (split_and!; [done..|lia]).
    - eexists _, _; (split_and!; [done..|lia]). }
  cbn [mbind option_bind]. rewrite Hc. cbn [mbind option_bind].
  pose proof (lookup_lt_Some _ _ _ Hc).
  rewrite <- (length_insert h pos hc) at 1.
  apply IH; rewrite length_insert; lia.
Qed.

Lemma heappush_total h x : is_Some (heappush h x).
Proof.
  unfold heappush, _siftdown. rewrite length_app. cbn [length].
  replace (length h + 1 - 1) with (length h) by lia.
  rewrite lookup_app_r, Nat.sub_diag by lia.
  cbn [lookup list_lookup mbind option_bind].
  apply _siftdown_loop_total; [lia|]. rewrite length_app. simpl. lia.
Qed.

Lemma heappop_total h : h ≠ [] → is_Some (heappop h).
Proof.
  intros Hne. destruct h as [|a h0 _] using rev_ind; [done|].
  unfold heappop. rewrite pop_snoc. cbn [mbind option_bind].
  destruct h0 as [|b h1]; [done|].
  cbn [lookup list_lookup insert list_insert mbind option_bind].
  unfold _siftup. cbn [lookup list_lookup mbind option_bind].
  destruct (_siftup_loop_total (S (length (a :: h1))) (a :: h1) 0)
    as [[h2 pos] E]; [lia|simpl; lia|].
  rewrite E. cbn [mbind option_bind].
  apply _siftup_loop_perm in E as (E1 & E2 & _); [|simpl; lia].
  unfold _siftdown. rewrite list_lookup_insert_eq by lia.
  cbn [mbind option_bind].
  destruct (_siftdown_loop_total (S pos) (<[pos:=a]> h2) 0 pos a) as [h3 E'];
    [lia|rewrite length_insert; lia|].
  by rewrite E'.
Qed.

Section Order.

Hypothesis lt_asym : ∀ x y, lt x y = true → lt y x = false.
Hypothesis lt_negtrans :
  ∀ x y z, lt x y = false → lt y z = false → lt x z = false.

Lemma le_refl x : le x x.
Proof. unfold le. destruct (lt x x) eqn:E; [|done]. by rewrite (lt_asym _ _ E) in E. Qed.

Lemma le_trans x y z : le x y → le y z → le x z.
Proof. unfold le. intros H1 H2. by apply (lt_negtrans z y x). Qed.

Lemma lt_le x y : lt x y = true → le x y.
Proof. apply lt_asym. Qed.

Lemma nlt_le x y : lt x y = false → le y x.
Proof. done. Qed.

Lemma lt_le_trans x p c : lt x p = true → le p c → le x c.
Proof.
  unfold le. intros H1 H2. destruct (lt c x) eqn:E; [|done].
  pose proof (lt_negtrans c p x H2 (lt_asym _ _ H1)). congruence.
Qed.

Lemma heap_ok_root_min h r :
  heap_ok h → h !! 0 = Some r → ∀ i y, h !! i = Some y → le r y.
Proof.
  intros Hh Hr i. induction i as [i IH] using lt_wf_ind. intros y Hy.
  destruct (decide (i = 0)) as [->|Hi].
  { simplify_eq. apply le_refl. }
  assert (Hlt : (i - 1) / 2 < i) by div_lia.
  destruct (h !! ((i - 1) / 2)) as [p|] eqn:Hp.
  - eapply le_trans; [by apply (IH _ Hlt)|]. apply (Hh i); [lia|done..].
  - apply lookup_ge_None in Hp. apply lookup_lt_Some in Hy. lia.
Qed.

Lemma heap_ok_snoc h x : heap_ok (h ++ [x]) → heap_ok h.
Proof.
  intros Hh i y p Hi Hy Hp. apply (Hh i); [done|..];
    rewrite lookup_app_l; eauto using lookup_lt_Some.
Qed.

Lemma heap_ok_hole h x : heap_ok h → hole_ok (<[0:=x]> h) 0.
Proof.
  intros Hh. split; [|intros; lia].
  intros i y p Hi Hne Hpar Hy Hp.
  rewrite list_lookup_insert_ne in Hy, Hp by lia. by apply (Hh i).
Qed.

Lemma _siftdown_loop_ok fuel : ∀ h pos x,
  pos < fuel → pos < length h → hole_ok h pos → above_ok h pos x →
  ∃ h', _siftdown_loop fuel h 0 pos x = Some h' ∧ heap_ok h' ∧
        h' ≡ₚ <[pos:=x]> h.
Proof.
  induction fuel as [|fuel IH]; intros h pos x Hf Hlen [Ha Hb] Hc; [lia|].
  cbn [_siftdown_loop]. destruct (Nat.ltb_spec 0 pos) as [Hpos|Hpos].
  - assert (Hlt : (pos - 1) / 2 < pos) by div_lia.
    destruct (lookup_lt_is_Some_2 h ((pos - 1) / 2)) as [p Hp]; [lia|].
    rewrite Hp. cbn [mbind option_bind]. destruct (lt x p) eqn:Hxp.
    + destruct (lookup_lt_is_Some_2 h pos) as [a Hpa]; [done|].
      destruct (IH (<[pos:=p]> h) ((pos - 1) / 2) x) as (h' & E & Hok & Hperm).
      * lia.
      * rewrite length_insert. lia.
      * split.
        -- intros i y g Hi Hne Hpar Hy Hg.
           destruct (decide (i = pos)) as [->|Hip]; [done|].
           rewrite list_lookup_insert_ne in Hy by done.
           destruct (decide ((i - 1) / 2 = pos)) as [Hq|Hq].
           ++ rewrite Hq, list_lookup_insert_eq in Hg by done. simplify_eq.
              destruct (decide (0 < (i - 1) / 2)) as [H0|H0]; [|lia].
              by apply (Hb i y g); try lia.
           ++ rewrite list_lookup_insert_ne in Hg by done. by apply (Ha i).
        -- intros c y g H0 Hc0 Hpar Hy Hg.
           rewrite list_lookup_insert_ne in Hg by lia.
           assert (Hpg : le g p) by (apply (Ha ((pos - 1) / 2)); (done || lia)).
           destruct (decide (c = pos)) as [->|Hcp].
           ++ rewrite list_lookup_insert_eq in Hy by done. by simplify_eq.
           ++ rewrite list_lookup_insert_ne in Hy by done.
              eapply le_trans; [exact Hpg|]. apply (Ha c); try (done || lia).
              by rewrite Hpar.
      * intros c y Hc0 Hpar Hy.
        destruct (decide (c = pos)) as [->|Hcp].
        -- rewrite list_lookup_insert_eq in Hy by done. simplify_eq.
           by apply lt_le.
        -- rewrite list_lookup_insert_ne in Hy by done.
           apply (lt_le_trans _ p); [done|]. apply (Ha c); try (done || lia).
           by rewrite Hpar.
      * exists h'. split; [done|]. split; [done|].
        rewrite Hperm. apply (insert_move_perm h pos _ a p); [lia|..].
        -- done.
        -- done.
    + eexists. split; [done|]. split; [|done].
      intros i y g Hi Hy Hg.
      destruct (decide (i = pos)) as [->|Hip].
      * rewrite list_lookup_insert_eq in Hy by done.
        rewrite list_lookup_insert_ne in Hg by lia. by simplify_eq.
      * rewrite list_lookup_insert_ne in Hy by done.
        destruct (decide ((i - 1) / 2 = pos)) as [Hq|Hq].
        -- rewrite Hq, list_lookup_insert_eq in Hg by done. simplify_eq.
           by apply (Hc i).
        -- rewrite list_lookup_insert_ne in Hg by done. by apply (Ha i).
  - assert (pos = 0) as -> by lia.
    eexists. split; [done|]. split; [|done].
    intros i y g Hi Hy Hg. rewrite list_lookup_insert_ne in Hy by lia.
    destruct (decide ((i - 1) / 2 = 0)) as [Hq|Hq].
    + rewrite Hq, list_lookup_insert_eq in Hg by done. simplify_eq.
      by apply (Hc i).
    + rewrite list_lookup_insert_ne in Hg by done. apply (Ha i); (done || lia).
Qed.

Lemma _siftup_loop_ok fuel : ∀ h pos,
  length h < fuel + pos → pos < length h → hole_ok h pos →
  ∃ h' pos', _siftup_loop fuel h (length h) pos = Some (h', pos') ∧
    length h' = length h ∧ pos' < length h ∧ length h ≤ 2 * pos' + 1 ∧
    hole_ok h' pos' ∧ ∀ x, <[pos':=x]> h' ≡ₚ <[pos:=x]> h.
Proof.
  induction fuel as [|fuel IH]; intros h pos Hf Hlen [Ha Hb]; [lia|].
  cbn [_siftup_loop]. destruct (Nat.ltb_spec (2 * pos + 1) (length h)) as [Hl|Hl];
    [|by eexists _, _].
  destruct (lookup_lt_is_Some_2 h (2 * pos + 1)) as [l Hlv]; [done|].
  destruct (lookup_lt_is_Some_2 h pos) as [a Hpa]; [done|].
  assert (∃ c hc, (if 2 * pos + 1 + 1 <? length h then
            l ← h !! (2 * pos + 1); r ← h !! (2 * pos + 1 + 1);
            Some (if negb (lt l r) then 2 * pos + 1 + 1 else 2 * pos + 1)
          else Some (2 * pos + 1)) = Some c ∧ h !! c = Some hc ∧
          (c - 1) / 2 = pos ∧ pos < c ∧
          ∀ s y, 0 < s → (s - 1) / 2 = pos → h !! s = Some y → le hc y)
    as (c & hc & -> & Hc & Hcp & Hposc & Hmin).
  { destruct (Nat.ltb_spec (2 * pos + 1 + 1) (length h)) as [Hr|Hr].
    - destruct (lookup_lt_is_Some_2 h (2 * pos + 1 + 1)) as [r Hrv]; [done|].
      rewrite Hlv, Hrv. cbn [mbind option_bind].
      destruct (lt l r) eqn:Hlr; cbn [negb].
      + exists (2 * pos + 1), l. repeat split; [done|div_lia|lia|].
        intros s y Hs Hsp Hy.
        destruct (parent_cases s pos Hs Hsp) as [->| ->]; simplify_eq.
        * apply le_refl.
        * by apply lt_le.
      + exists (2 * pos + 1 + 1), r. repeat split; [done|div_lia|lia|].
        intros s y Hs Hsp Hy.
        destruct (parent_cases s pos Hs Hsp) as [->| ->]; simplify_eq.
        * by apply nlt_le.
        * apply le_refl.
    - exists (2 * pos + 1), l. repeat split; [done|div_lia|lia|].
      intros s y Hs Hsp Hy.
      destruct (parent_cases s pos Hs Hsp) as [->| ->]; simplify_eq.
      + apply le_refl.
      + apply lookup_lt_Some in Hy. lia. }
  cbn [mbind option_bind]. rewrite Hc. cbn [mbind option_bind].
  assert (Hclt : c < length h) by by eapply lookup_lt_Some.
  destruct (IH (<[pos:=hc]> h) c) as (h' & pos' & E & Hlen' & Hp' & Hleaf & Hh' & Hperm).
  - rewrite length_insert. lia.
  - by rewrite length_insert.
  - split.
    + intros i y g Hi Hne Hpar Hy Hg.
      destruct (decide ((i - 1) / 2 = pos)) as [Hq|Hq].
      * rewrite Hq, list_lookup_insert_eq in Hg by done. simplify_eq.
        rewrite list_lookup_insert_ne in Hy by div_lia.
        by apply (Hmin i).
      * rewrite list_lookup_insert_ne in Hg by done.
        destruct (decide (i = pos)) as [->|Hip].
        -- rewrite list_lookup_insert_eq in Hy by done. simplify_eq.
           apply (Hb c); (done || lia).
        -- rewrite list_lookup_insert_ne in Hy by done. by apply (Ha i).
    + intros g y p H0 Hg Hgc Hy Hp. rewrite Hcp in Hp.
      rewrite list_lookup_insert_eq in Hp by done.
      assert (p = hc) as -> by congruence.
      rewrite list_lookup_insert_ne in Hy by div_lia.
      apply (Ha g); [done|div_lia|div_lia|done|]. by rewrite Hgc.
  - rewrite length_insert in E, Hlen', Hp', Hleaf. exists h', pos'.
    do 5 (split; [done|]).
    intros x. rewrite Hperm. by apply (insert_move_perm h pos c a hc); [lia|..].
Qed.

Lemma heappush_ok h x :
  heap_ok h → ∃ h', heappush h x = Some h' ∧ heap_ok h' ∧ h' ≡ₚ x :: h.
Proof.
  intros Hh. unfold heappush, _siftdown.
  rewrite length_app. cbn [length].
  replace (length h + 1 - 1) with (length h) by lia.
  rewrite lookup_app_r, Nat.sub_diag by lia. cbn [lookup list_lookup mbind option_bind].
  destruct (_siftdown_loop_ok (S (length h)) (h ++ [x]) (length h) x)
    as (h' & E & Hok & Hperm).
  - lia.
  - rewrite length_app. simpl. lia.
  - split.
    + intros i y p Hi Hne Hpar Hy Hp.
      assert (i < length h).
      { apply lookup_lt_Some in Hy. rewrite length_app in Hy. simpl in Hy. lia. }
      rewrite lookup_app_l in Hy by done.
      rewrite lookup_app_l in Hp by div_lia. by apply (Hh i).
    + intros c y g H0 Hc Hpar Hy Hg. apply lookup_lt_Some in Hy.
      rewrite length_app in Hy. simpl in Hy. div_lia.
  - intros c y Hc Hpar Hy. apply lookup_lt_Some in Hy.
    rewrite length_app in Hy. simpl in Hy. div_lia.
  - exists h'. repeat split; [done..|]. rewrite Hperm.
    rewrite insert_app_r_alt, Nat.sub_diag by lia. simpl.
    by rewrite <- Permutation_cons_append.
Qed.

Lemma heappop_ok h :
  heap_ok h → h ≠ [] →
  ∃ r h', heappop h = Some (r, h') ∧ heap_ok h' ∧ r :: h' ≡ₚ h ∧
          ∀ y, y ∈ h → le r y.
Proof.
  intros Hh Hne. destruct h as [|a h0 _] using rev_ind; [done|].
  unfold heappop. rewrite pop_snoc. cbn [mbind option_bind].
  pose proof (heap_ok_snoc _ _ Hh) as Hh0.
  destruct h0 as [|r h1].
  { exists a, []. repeat split; [done..|].
    intros y ->%list_elem_of_singleton. apply le_refl. }
  cbn [lookup list_lookup mbind option_bind]. unfold _siftup.
  cbn [lookup list_lookup insert list_insert mbind option_bind].
  destruct (_siftup_loop_ok (S (length (a :: h1))) (a :: h1) 0)
    as (h' & pos' & E & Hlen' & Hp' & Hleaf & Hhole & Hperm).
  { lia. } { simpl; lia. } { apply (heap_ok_hole (r :: h1) a Hh0). }
  rewrite E. cbn [mbind option_bind]. unfold _siftdown.
  rewrite list_lookup_insert_eq by lia. cbn [mbind option_bind].
  destruct (_siftdown_loop_ok (S pos') (<[pos':=a]> h') pos' a)
    as (h'' & E' & Hok & Hperm').
  { lia. } { rewrite length_insert. lia. }
  { destruct Hhole as [Ha Hb]. split.
    - intros i y p Hi Hn1 Hn2 Hy Hp.
      rewrite list_lookup_insert_ne in Hy, Hp by done. by apply (Ha i).
    - intros c y g H0 Hc Hpar Hy Hg.
      rewrite list_lookup_insert_ne in Hy by div_lia.
      rewrite list_lookup_insert_ne in Hg by div_lia. by apply (Hb c). }
  { intros c y Hc Hpar Hy. apply lookup_lt_Some in Hy.
    rewrite length_insert in Hy. div_lia. }
  rewrite E'. cbn [mbind option_bind]. exists r, h''.
  assert (Hp2 : h'' ≡ₚ a :: h1).
  { rewrite Hperm', list_insert_insert_eq. by rewrite (Hperm a). }
  repeat split; [done| |].
  - rewrite Hp2. rewrite <- Permutation_cons_append. by rewrite perm_swap.
  - intros y Hy. apply list_elem_of_lookup in Hy as [i Hi].
    by eapply heap_ok_root_min; [exact Hh|done|exact Hi].
Qed.

End Order.

(** ** Running a critical section *)

Ltac unfold_queue_in H :=
  unfold exec, resume, cancel_wait, returning, reading, loop_callback,
    job_run, done_callback, run_job, aclose, close, wait_closed,
    wait_closed_resume_sleep,
    _SyncQueueProxy_task_done, _SyncQueueProxy_join,
    _SyncQueueProxy_join_resume, _SyncQueueProxy_join_loop,
    _SyncQueueProxy_put_nowait, _SyncQueueProxy_get_nowait,
    _SyncQueueProxy_put, _SyncQueueProxy_put_resume,
    _SyncQueueProxy_put_loop, _SyncQueueProxy_put_commit,
    _SyncQueueProxy_get, _SyncQueueProxy_get_resume,
    _SyncQueueProxy_get_loop, _SyncQueueProxy_get_commit,
    _AsyncQueueProxy_put, _AsyncQueueProxy_put_resume,
    _AsyncQueueProxy_put_cancel, _AsyncQueueProxy_put_loop,
    _AsyncQueueProxy_put_commit, _AsyncQueueProxy_put_nowait,
    _AsyncQueueProxy_get, _AsyncQueueProxy_get_resume,
    _AsyncQueueProxy_get_cancel, _AsyncQueueProxy_get_loop,
    _AsyncQueueProxy_get_commit, _AsyncQueueProxy_get_nowait,
    _AsyncQueueProxy_task_done, _AsyncQueueProxy_join,
    _notify_async_not_empty, _notify_async_not_full,
    _make_async_not_empty_notifier, _make_async_not_full_notifier,
    _notify_sync_not_empty, _notify_sync_not_full,
    _call_soon_threadsafe, _get_loop, _check_closing,
    _put_internal, _put, _get,
    with_mutex, wait, on_exit, acquire, release, when,
    bind, ret, raise, park, get_st, modify, emit, _qsize in H.

Ltac reduce_queue_in H :=
  cbn [st res out fst snd _kind _loop _maxsize _queue _unfinished_tasks
       _sync_mutex _sync_not_empty_waiting _sync_not_full_waiting
       _async_not_empty_waiting _async_not_full_waiting _finished _closing
       _pending set_loop set_queue set_unfinished_tasks set_sync_mutex
       set_sync_not_empty_waiting set_sync_not_full_waiting
       set_async_not_empty_waiting set_async_not_full_waiting set_finished
       set_closing set_pending app negb _qsize] in H.

Ltac reduce_queue :=
  cbn [st res out fst snd _kind _loop _maxsize _queue _unfinished_tasks
       _sync_mutex _sync_not_empty_waiting _sync_not_full_waiting
       _async_not_empty_waiting _async_not_full_waiting _finished _closing
       _pending set_loop set_queue set_unfinished_tasks set_sync_mutex
       set_sync_not_empty_waiting set_sync_not_full_waiting
       set_async_not_empty_waiting set_async_not_full_waiting set_finished
       set_closing set_pending app negb _qsize].

(** Runs the critical section in [H : m q = (r, q', o)] along every path. *)
Ltac run_in H :=
  unfold _qsize in *; unfold_queue_in H;
  repeat (reduce_queue_in H;
          match type of H with
          | context [match ?x with _ => _ end] =>
            lazymatch x with
            | context [match _ with _ => _ end] => fail
            | _ =>
              match goal with
              | Hx : x = _ |- _ => rewrite Hx in H
              | _ => destruct x eqn:?
              end
            end
          end);
  reduce_queue_in H; simplify_eq; reduce_queue.

(** Equality of two queue objects, field by field. *)
Ltac queue_eq q :=
  destruct q; cbn in *; simplify_eq; repeat f_equal; (done || lia).

Ltac bool_to_prop :=
  repeat match goal with
  | H : (_ <=? _)%Z = true |- _ => apply Z.leb_le in H
  | H : (_ <=? _)%Z = false |- _ => apply Z.leb_gt in H
  | H : (_ <? _)%Z = true |- _ => apply Z.ltb_lt in H
  | H : (_ <? _)%Z = false |- _ => apply Z.ltb_ge in H
  | H : (_ =? _)%Z = true |- _ => apply Z.eqb_eq in H
  | H : (_ =? _)%Z = false |- _ => apply Z.eqb_neq in H
  | H : negb _ = true |- _ => apply negb_true_iff in H
  | H : negb _ = false |- _ => apply negb_false_iff in H
  end.

Ltac exec_cases a H :=
  destruct a as [| | | | | | | | | | | | | | | | | | | | | | | | | | | | |[]|[]|[]| |];
  run_in H.

Lemma exec_kind env a q r q' o : exec env a q = (r, q', o) → _kind q' = _kind q.
Proof. intros H. exec_cases a H; done. Qed.

Lemma exec_maxsize env a q r q' o :
  exec env a q = (r, q', o) → _maxsize q' = _maxsize q.
Proof. intros H. exec_cases a H; done. Qed.

Lemma exec_commit env a q r q' o :
  exec env a q = (r, q', o) → commit_spec a q (r, q', o).
Proof.
  intros H. unfold commit_spec, put_buffer, get_buffer.
  exec_cases a H; cbn [put_of got_of put_item]; reduce_queue;
    unfold nonzero in *; bool_to_prop;
    try (split_and?; (done || lia)).
  all: try (right; split_and?; (done || lia)).
Qed.

(** ** One action *)

Lemma put_buffer_perm k buf x buf' :
  put_buffer k buf x = Some buf' → buf' ≡ₚ x :: buf.
Proof.
  destruct k; cbn [put_buffer]; [intros [= <-]; by rewrite <- Permutation_cons_append..|].
  apply heappush_perm.
Qed.

Lemma get_buffer_perm k buf x buf' :
  get_buffer k buf = Some (x, buf') → x :: buf' ≡ₚ buf.
Proof.
  destruct k; cbn [get_buffer].
  - destruct buf; [done|]. by intros [= <- <-].
  - intros ->%pop_Some. apply Permutation_cons_append.
  - apply heappop_perm.
Qed.

Lemma qsize_perm (q q' : Queue) x :
  _queue q' ≡ₚ x :: _queue q → _qsize q' = (_qsize q + 1)%Z.
Proof. unfold _qsize. intros ->%Permutation_length. simpl. lia. Qed.

(** The three ways an action can touch the buffer. *)
Lemma exec_cases_commit env a q r q' o :
  exec env a q = (r, q', o) →
  (put_of a r = [] ∧ got_of a r = [] ∧ _queue q' = _queue q ∧
   (_unfinished_tasks q' = _unfinished_tasks q ∨
    _unfinished_tasks q' = _unfinished_tasks q - 1 ∧ 0 ≤ _unfinished_tasks q')%Z) ∨
  (∃ x, put_of a r = [x] ∧ got_of a r = [] ∧
     put_buffer (_kind q) (_queue q) x = Some (_queue q') ∧
     (0 < _maxsize q → _qsize q < _maxsize q)%Z ∧
     _unfinished_tasks q' = (_unfinished_tasks q + 1)%Z ∧
     _finished q' = false ∧ _closing q' = _closing q) ∨
  (∃ x, put_of a r = [] ∧ got_of a r = [x] ∧
     get_buffer (_kind q) (_queue q) = Some (x, _queue q') ∧
     _unfinished_tasks q' = _unfinished_tasks q ∧
     _finished q' = _finished q ∧ _closing q' = _closing q).
Proof.
  intros H%exec_commit. unfold commit_spec in H. cbn [st res fst snd] in H.
  destruct (put_of a r) as [|x [|]], (got_of a r) as [|y [|]]; try done.
  - left. by destruct H.
  - right; right. exists y. by destruct H as (? & ? & ? & ?).
  - right; left. exists x. by destruct H as (? & ? & ? & ? & ?).
Qed.

Lemma exec_bounded env a q : bounded q → bounded (st (exec env a q)).
Proof.
  destruct (exec env a q) as [[r q'] o] eqn:E. cbn [st fst snd].
  unfold bounded. rewrite (exec_maxsize _ _ _ _ _ _ E). intros Hb Hm.
  destruct (exec_cases_commit _ _ _ _ _ _ E)
    as [(_ & _ & Hq & _)|[(x & _ & _ & Hp & Hlt & _)|(x & _ & _ & Hg & _)]].
  - unfold _qsize in *. rewrite Hq. auto.
  - apply put_buffer_perm in Hp. rewrite (qsize_perm _ _ _ Hp).
    specialize (Hlt Hm). lia.
  - apply get_buffer_perm, Permutation_length in Hg.
    specialize (Hb Hm). unfold _qsize in *. simpl in Hg. lia.
Qed.

Lemma exec_unfinished env a q :
  (0 ≤ _unfinished_tasks q → 0 ≤ _unfinished_tasks (st (exec env a q)))%Z.
Proof.
  destruct (exec env a q) as [[r q'] o] eqn:E. cbn [st fst snd].
  destruct (exec_cases_commit _ _ _ _ _ _ E)
    as [(_ & _ & _ & Hu)|[(x & _ & _ & _ & _ & Hu & _)|(x & _ & _ & _ & Hu & _)]];
    lia.
Qed.

Lemma exec_buffer_ok env a q :
  strict_weak_order → buffer_ok q → buffer_ok (st (exec env a q)).
Proof.
  intros [Hasym Hneg]. destruct (exec env a q) as [[r q'] o] eqn:E.
  cbn [st fst snd]. unfold buffer_ok.
  rewrite (exec_kind _ _ _ _ _ _ E). intros Hb Hk. specialize (Hb Hk).
  destruct (exec_cases_commit _ _ _ _ _ _ E)
    as [(_ & _ & Hq & _)|[(x & _ & _ & Hp & _)|(x & _ & _ & Hg & _)]].
  - by rewrite Hq.
  - rewrite Hk in Hp. cbn [put_buffer] in Hp.
    destruct (heappush_ok Hasym Hneg _ x Hb) as (h' & E' & Hok & _).
    by simplify_eq.
  - rewrite Hk in Hg. cbn [get_buffer] in Hg.
    destruct (decide (_queue q = [])) as [Hnil|Hnil]; [by rewrite Hnil in Hg|].
    destruct (heappop_ok Hasym Hneg _ Hb Hnil) as (y & h' & E' & Hok & _).
    by simplify_eq.
Qed.

(** ** Executions *)

Lemma run_kind acts : ∀ q, _kind (run acts q) = _kind q.
Proof.
  induction acts as [|[env a] acts IH]; intros q; [done|]. cbn [run].
  rewrite IH. destruct (exec env a q) as [[r q'] o] eqn:E.
  apply (exec_kind _ _ _ _ _ _ E).
Qed.

Lemma run_maxsize acts : ∀ q, _maxsize (run acts q) = _maxsize q.
Proof.
  induction acts as [|[env a] acts IH]; intros q; [done|]. cbn [run].
  rewrite IH. destruct (exec env a q) as [[r q'] o] eqn:E.
  apply (exec_maxsize _ _ _ _ _ _ E).
Qed.

Lemma run_bounded acts : ∀ q, bounded q → bounded (run acts q).
Proof.
  induction acts as [|[env a] acts IH]; intros q Hq; [done|].
  by apply IH, exec_bounded.
Qed.

Lemma run_unfinished acts :
  ∀ q, (0 ≤ _unfinished_tasks q → 0 ≤ _unfinished_tasks (run acts q))%Z.
Proof.
  induction acts as [|[env a] acts IH]; intros q Hq; [done|].
  by apply IH, exec_unfinished.
Qed.

Lemma run_buffer_ok acts :
  strict_weak_order → ∀ q, buffer_ok q → buffer_ok (run acts q).
Proof.
  intros Ho. induction acts as [|[env a] acts IH]; intros q Hq; [done|].
  by apply IH, exec_buffer_ok.
Qed.

(** Every item put was got or is in the buffer. *)
Lemma run_conserve acts :
  ∀ q, gets acts q ++ _queue (run acts q) ≡ₚ _queue q ++ puts acts q.
Proof.
  induction acts as [|[env a] acts IH]; intros q.
  { simpl. by rewrite app_nil_r. }
  cbn [run gets puts]. destruct (exec env a q) as [[r q'] o] eqn:E.
  cbn [st res fst snd]. rewrite <- app_assoc, IH.
  destruct (exec_cases_commit _ _ _ _ _ _ E)
    as [(-> & -> & -> & _)|[(x & -> & -> & Hp & _)|(x & -> & -> & Hg & _)]].
  - done.
  - apply put_buffer_perm in Hp. rewrite Hp. simpl.
    by rewrite Permutation_middle.
  - apply get_buffer_perm in Hg. by rewrite <- Hg.
Qed.

Lemma run_fifo acts :
  ∀ q, _kind q = Fifo →
       gets acts q ++ _queue (run acts q) = _queue q ++ puts acts q.
Proof.
  induction acts as [|[env a] acts IH]; intros q Hk.
  { simpl. by rewrite app_nil_r. }
  cbn [run gets puts]. destruct (exec env a q) as [[r q'] o] eqn:E.
  cbn [st res fst snd]. rewrite <- app_assoc, IH
    by by rewrite (exec_kind _ _ _ _ _ _ E).
  destruct (exec_cases_commit _ _ _ _ _ _ E)
    as [(-> & -> & -> & _)|[(x & -> & -> & Hp & _)|(x & -> & -> & Hg & _)]];
    rewrite ?Hk in *; cbn [put_buffer get_buffer] in *.
  - done.
  - simplify_eq. by rewrite <- Hp, <- app_assoc.
  - destruct (_queue q); by simplify_eq/=.
Qed.

Lemma run_sublist acts :
  ∀ q, _kind q ≠ Priority →
       _queue (run acts q) `sublist_of` _queue q ++ puts acts q.
Proof.
  induction acts as [|[env a] acts IH]; intros q Hk.
  { simpl. by rewrite app_nil_r. }
  cbn [run puts]. destruct (exec env a q) as [[r q'] o] eqn:E.
  cbn [st res fst snd].
  transitivity (_queue q' ++ puts acts q').
  { apply IH. by rewrite (exec_kind _ _ _ _ _ _ E). }
  rewrite app_assoc. apply sublist_app; [|done].
  destruct (exec_cases_commit _ _ _ _ _ _ E)
    as [(-> & _ & -> & _)|[(x & -> & _ & Hp & _)|(x & -> & _ & Hg & _)]].
  - by rewrite app_nil_r.
  - destruct (_kind q); [| |done]; cbn [put_buffer] in Hp;
      by injection Hp as <-.
  - rewrite app_nil_r. destruct (_kind q); cbn [get_buffer] in Hg; [| |done].
    + destruct (_queue q); simplify_eq/=. by apply sublist_cons.
    + apply pop_Some in Hg as ->. by apply sublist_inserts_r.
Qed.

Lemma sublist_sorted (R : relation T) (l1 l2 : list T) :
  l1 `sublist_of` l2 → StronglySorted R l2 → StronglySorted R l1.
Proof.
  induction 1 as [|x l1 l2 Hs IH|x l1 l2 Hs IH]; intros Hl.
  - done.
  - apply StronglySorted_inv in Hl as [Hl Hx]. constructor; [auto|].
    rewrite Forall_forall in Hx |- *. intros y Hy. apply Hx.
    by eapply elem_of_sublist.
  - apply StronglySorted_inv in Hl as [Hl _]. auto.
Qed.

(** ** The claims *)

Lemma returning_Done {A} (f : A → value) (m : M A) q v q' o :
  returning f m q = (Done v, q', o) → ∃ a, v = f a.
Proof.
  unfold returning, bind, ret. destruct (m q) as [[[a| | |] q1] o1]; [|done..].
  intros [= <- <- <-]. by exists a.
Qed.

Lemma get_Done env a q v q' o :
  is_get a = true → exec env a q = (Done v, q', o) → ∃ item, v = VItem item.
Proof.
  destruct a as [| | | | | | | | | | | | | | | | | | | | | | | | | | | | |[]| | | |];
    try done; intros _; apply returning_Done.
Qed.

Lemma get_buffer_total k (buf : list T) :
  buf ≠ [] → is_Some (get_buffer k buf).
Proof.
  intros Hne. destruct k; cbn [get_buffer].
  - by destruct buf.
  - destruct buf as [|x buf _] using rev_ind; [done|]. by rewrite pop_snoc.
  - by apply heappop_total.
Qed.

(** [get_nowait()] on an open queue that holds an item returns. *)
Lemma get_nowait_returns env q :
  _closing q = false → _sync_mutex q = false → _queue q ≠ [] →
  ∃ r q' o, exec env Sync_get_nowait q = (Done (VItem r), q', o).
Proof.
  intros Hc Hm Hne.
  destruct (get_buffer_total (_kind q) _ Hne) as [[r rest] Hg].
  assert (Hsz : negb (nonzero (Z.of_nat (length (_queue q)))) = false).
  { unfold nonzero. apply negb_false_iff, negb_true_iff, Z.eqb_neq.
    destruct (_queue q); [done|simpl; lia]. }
  unfold get_buffer in Hg.
  destruct (exec env Sync_get_nowait q) as [[x q'] o] eqn:E.
  destruct (_kind q) eqn:Hk; run_in E; by eexists _, _, _.
Qed.

(** C1: in every execution of a fresh queue, whatever the calls that came
    before (on either facade, failed, parked or resumed), all that was put
    is what was got plus what the buffer holds; [get_nowait()] on the open
    queue returns when the buffer holds an item; and a [get] that returns
    hands out an item [r] of the buffer and leaves the rest.  With class
    [Queue] the items got so far, [r] included, followed by the buffer are
    the items put, in the order they were put: items leave in insertion
    order, and [r] is older than what remains.  With class [LifoQueue] [r]
    is newer than what remains.  Age is measured by any [stamp] that
    increases along the sequence of puts.  With class [PriorityQueue],
    when [<] is a strict weak order, no item of the buffer is smaller than
    [r]. *)
Theorem strategy_order (k : kind) (maxsize : Z) (loop0 : option loop)
    (acts : list (Env * action)) :
  let q0 := __init__ k maxsize loop0 in
  let q := run acts q0 in
  gets acts q0 ++ _queue q ≡ₚ puts acts q0 ∧
  (∀ env, _closing q = false → _sync_mutex q = false → _queue q ≠ [] →
     ∃ r q' o, exec env Sync_get_nowait q = (Done (VItem r), q', o)) ∧
  ∀ env a r q' o,
    exec env a q = (Done (VItem r), q', o) →
    r :: _queue q' ≡ₚ _queue q ∧
    match k with
    | Fifo =>
      (gets acts q0 ++ [r]) ++ _queue q' = puts acts q0 ∧
      ∀ stamp : T → nat,
        StronglySorted (λ x y, stamp x < stamp y) (puts acts q0) →
        Forall (λ y, stamp r < stamp y) (_queue q')
    | Lifo =>
      ∀ stamp : T → nat,
        StronglySorted (λ x y, stamp x < stamp y) (puts acts q0) →
        Forall (λ y, stamp y < stamp r) (_queue q')
    | Priority =>
      strict_weak_order → Forall (λ y, lt y r = false) (_queue q)
    end.
Proof.
  intros q0 q.
  pose proof (run_conserve acts q0) as Hc. cbn [_queue q0 __init__ app] in Hc.
  pose proof (run_kind acts q0) as Hk. cbn [_kind q0 __init__] in Hk.
  fold q in Hc, Hk.
  split; [done|]. split; [intros env; apply get_nowait_returns|].
  intros env a r q' o E.
  destruct (exec_cases_commit _ _ _ _ _ _ E)
    as [(_ & Hgot & _)|[(x & _ & Hgot & _)|(x & _ & Hgot & Hg & _)]];
    [done..|]. cbn [got_of] in Hgot. injection Hgot as <-.
  split; [by eapply get_buffer_perm|].
  rewrite Hk in Hg. destruct k; cbn [get_buffer] in Hg.
  - pose proof (run_fifo acts q0 eq_refl) as Hf.
    cbn [_queue q0 __init__ app] in Hf. fold q in Hf.
    destruct (_queue q) as [|y rest] eqn:Hq; simplify_eq/=.
    split; [by rewrite <- app_assoc|].
    intros stamp Hs. rewrite <- Hf in Hs.
    by apply StronglySorted_app_1_r, StronglySorted_inv in Hs as [_ Hs].
  - intros stamp Hs. apply pop_Some in Hg.
    pose proof (run_sublist acts q0) as Hsub.
    cbn [_queue _kind q0 __init__ app] in Hsub. fold q in Hsub.
    apply (sublist_sorted _ _ _ (Hsub ltac:(done))) in Hs. rewrite Hg in Hs.
    apply Forall_forall. intros y Hy.
    apply (StronglySorted_app_1_elem_of _ _ _ y r Hs); [done|].
    apply list_elem_of_singleton; done.
  - intros [Hasym Hneg].
    assert (Hb : buffer_ok q).
    { apply run_buffer_ok; [done|]. intros _ i y p Hi Hy. done. }
    specialize (Hb Hk).
    destruct (decide (_queue q = [])) as [Hnil|Hnil]; [by rewrite Hnil in Hg|].
    destruct (heappop_ok Hasym Hneg _ Hb Hnil) as (y & h' & E' & _ & _ & Hmin).
    rewrite E' in Hg. injection Hg as -> _. by apply Forall_forall.
Qed.

(** [put_nowait(item)] on an open queue with room returns. *)
Lemma put_nowait_returns env q item :
  _closing q = false → _sync_mutex q = false →
  (_maxsize q <=? _qsize q)%Z = false →
  ∃ q' o, exec env (Sync_put_nowait item) q = (Done VNone, q', o).
Proof.
  intros Hc Hm Hroom.
  destruct (heappush_total (_queue q) item) as [h Hh].
  destruct (exec env (Sync_put_nowait item) q) as [[x q'] o] eqn:E.
  destruct (_kind q) eqn:Hk; run_in E; by eexists _, _.
Qed.

(** C2: in every execution of a queue made with [maxsize > 0] the buffer
    never holds more than [maxsize] items; a [put] of either facade
    (blocking, suspending, [put_nowait], or a parked [put] going on) that
    returns found fewer than [maxsize] items under the mutex and added
    one; and [put_nowait] on the open queue returns when there is room. *)
Theorem capacity (k : kind) (maxsize : Z) (loop0 : option loop)
    (acts : list (Env * action)) :
  (0 < maxsize)%Z →
  let q := run acts (__init__ k maxsize loop0) in
  (_qsize q ≤ maxsize)%Z ∧
  (∀ env a item v q' o,
     put_item a = Some item → exec env a q = (Done v, q', o) →
     (_qsize q < maxsize)%Z ∧ _qsize q' = (_qsize q + 1)%Z) ∧
  (∀ env item,
     _closing q = false → _sync_mutex q = false → (_qsize q < maxsize)%Z →
     ∃ q' o, exec env (Sync_put_nowait item) q = (Done VNone, q', o)).
Proof.
  intros Hm q.
  assert (Hmax : _maxsize q = maxsize) by apply run_maxsize.
  split_and!.
  - pose proof (run_bounded acts (__init__ k maxsize loop0)) as Hb.
    unfold bounded in Hb. fold q in Hb. rewrite Hmax in Hb.
    apply Hb; [|done]. intros _. unfold _qsize. simpl. lia.
  - intros env a item v q' o Hput E.
    destruct (exec_cases_commit _ _ _ _ _ _ E)
      as [(Hp & _)|[(x & _ & _ & Hp & Hlt & _)|(x & Hp & _)]];
      [cbn [put_of] in Hp; by rewrite Hput in Hp| |
       cbn [put_of] in Hp; by rewrite Hput in Hp].
    apply put_buffer_perm in Hp. rewrite (qsize_perm _ _ _ Hp).
    rewrite Hmax in Hlt. auto.
  - intros env item Hc Hmx Hroom. apply put_nowait_returns; [done..|].
    apply Z.leb_gt. by rewrite Hmax.
Qed.

(** C10: a [get] or [get_nowait] of either facade that returns takes
    exactly one item out of the buffer, the one it returns, and leaves
    [unfinished_tasks], the finished signal, [maxsize] and the closing flag
    as they were; a [put] that returns adds its item, adds one to
    [unfinished_tasks], clears the finished signal and leaves [maxsize] and
    the closing flag as they were. *)
Theorem commit_frame (env : Env) (a : action) (q : Queue) (v : value)
    (q' : Queue) (o : list effect) :
  exec env a q = (Done v, q', o) →
  (is_get a = true →
     ∃ item, v = VItem item ∧ item :: _queue q' ≡ₚ _queue q ∧
       _qsize q' = (_qsize q - 1)%Z ∧
       _unfinished_tasks q' = _unfinished_tasks q ∧
       _finished q' = _finished q ∧ _maxsize q' = _maxsize q ∧
       _closing q' = _closing q) ∧
  (∀ item, put_item a = Some item →
     _queue q' ≡ₚ item :: _queue q ∧ _qsize q' = (_qsize q + 1)%Z ∧
     _unfinished_tasks q' = (_unfinished_tasks q + 1)%Z ∧
     _finished q' = false ∧ _maxsize q' = _maxsize q ∧
     _closing q' = _closing q).
Proof.
  intros E. pose proof (exec_maxsize _ _ _ _ _ _ E) as Hm. split.
  - intros Hget. destruct (get_Done _ _ _ _ _ _ Hget E) as [item ->].
    exists item. split; [done|].
    destruct (exec_cases_commit _ _ _ _ _ _ E)
      as [(_ & Hgot & _)|[(x & _ & Hgot & _)|(x & _ & Hgot & Hg & Hu & Hf & Hc)]];
      [done..|]. cbn [got_of] in Hgot. injection Hgot as <-.
    apply get_buffer_perm in Hg. split_and!; try done.
    apply Permutation_length in Hg. unfold _qsize. simpl in Hg. lia.
  - intros item Hput.
    destruct (exec_cases_commit _ _ _ _ _ _ E)
      as [(Hp & _)|[(x & Hp' & _ & Hp & _ & Hu & Hf & Hc)|(x & Hp & _)]];
      [cbn [put_of] in Hp; by rewrite Hput in Hp| |
       cbn [put_of] in Hp; by rewrite Hput in Hp].
    cbn [put_of] in Hp'. rewrite Hput in Hp'. injection Hp' as <-.
    apply put_buffer_perm in Hp. split_and!; try done.
    by apply (qsize_perm _ _ item).
Qed.

(** C5 (as amended): in every execution of a fresh queue
    [unfinished_tasks] is never negative, in the state reached and after
    any further action, whatever the closing flag and the mutex are.  On
    a queue that is closing, [task_done()] of either facade raises the
    [RuntimeError] of the closed queue and changes nothing.  On a queue
    that is not closing, [task_done()], once it holds the mutex, raises
    the [ValueError] of too many completions exactly when
    [unfinished_tasks] is 0, and then leaves the queue as it was;
    otherwise it returns and [unfinished_tasks] is one less. *)
Theorem task_done_open (k : kind) (maxsize : Z) (loop0 : option loop)
    (acts : list (Env * action)) (env : Env) (a : action) :
  let q := run acts (__init__ k maxsize loop0) in
  let x := exec env a q in
  (0 ≤ _unfinished_tasks q)%Z ∧
  (0 ≤ _unfinished_tasks (st x))%Z ∧
  (a = Sync_task_done ∨ a = Async_task_done →
   (_closing q = true → x = (Fail RuntimeError_closed, q, [])) ∧
   (_closing q = false → _sync_mutex q = false →
    (res x = Fail ValueError_task_done ↔ _unfinished_tasks q = 0%Z) ∧
    (_unfinished_tasks q = 0%Z → st x = q) ∧
    (_unfinished_tasks q ≠ 0%Z →
       res x = Done VNone ∧
       _unfinished_tasks (st x) = (_unfinished_tasks q - 1)%Z))).
Proof.
  intros q x.
  assert (Hu : (0 ≤ _unfinished_tasks q)%Z).
  { apply (run_unfinished acts (__init__ k maxsize loop0)). done. }
  split; [done|]. split; [by apply exec_unfinished|].
  subst x. clearbody q. intros Ha. split.
  - intros Hc. destruct (exec env a q) as [[r q'] o] eqn:E.
    destruct Ha as [-> | ->]; by run_in E.
  - intros Hc Hm.
    destruct (exec env a q) as [[r q'] o] eqn:E. cbn [st res fst snd].
    destruct Ha as [-> | ->]; run_in E; bool_to_prop;
      (split_and!; [split; intros; (done || lia)|intros; try lia..]);
      try done; queue_eq q.
Qed.

Lemma Qlt_bool_true (t : Q) : (t < 0)%Q → Qlt_bool t 0 = true.
Proof.
  intros Ht. unfold Qlt_bool. apply negb_true_iff.
  destruct (Qle_bool 0 t) eqn:E; [|done].
  apply Qle_bool_iff in E. by apply Qlt_not_le in Ht.
Qed.

(** C6 (as amended): on a queue that is not closing and whose mutex the
    caller gets, [get(block=True, timeout)] of the blocking facade with a
    negative [timeout] raises the [ValueError] of an invalid timeout
    whatever [maxsize] and the buffer are, and so does
    [put(item, block=True, timeout)] when [maxsize > 0]; when
    [maxsize <= 0] the [put] does not look at [timeout] and does what
    [put(item)] does. *)
Theorem negative_timeout (env : Env) (q : Queue) (item : T) (timeout : Q) :
  (timeout < 0)%Q → _closing q = false → _sync_mutex q = false →
  exec env (Sync_get true (Some timeout)) q = (Fail ValueError_timeout, q, []) ∧
  ((0 < _maxsize q)%Z →
   exec env (Sync_put item true (Some timeout)) q
   = (Fail ValueError_timeout, q, [])) ∧
  ((_maxsize q ≤ 0)%Z →
   exec env (Sync_put item true (Some timeout)) q
   = exec env (Sync_put item true None) q).
Proof.
  intros Ht%Qlt_bool_true Hc Hm. split_and!.
  - destruct (exec _ _ q) as [[r q'] o] eqn:E. run_in E. queue_eq q.
  - intros Hmax%Z.ltb_lt.
    destruct (exec _ _ q) as [[r q'] o] eqn:E. run_in E. queue_eq q.
  - intros Hmax%Z.ltb_ge.
    unfold exec, returning, _SyncQueueProxy_put, _check_closing, with_mutex,
      acquire, on_exit, bind, get_st, ret, raise.
    rewrite Hc, Hm. reduce_queue. by rewrite Hmax.
Qed.

(** A timed [put] on a full queue: at its call, and when its wait
    returns after the deadline. *)
Lemma timed_put_full env item (t : Q) q :
  _closing q = false → _sync_mutex q = false →
  (0 <? _maxsize q)%Z = true → (_maxsize q <=? _qsize q)%Z = true →
  Qlt_bool t 0 = false →
  exec env (Sync_put item true (Some t)) q
  = if Qle_bool (monotonic0 env + t - monotonic1 env) 0
    then (Fail SyncQueueFull, q, [])
    else (Park (K_sync_put item (Some (monotonic0 env + t)%Q)),
          set_sync_not_full_waiting (_sync_not_full_waiting q + 1) q, []).
Proof.
  intros Hc Hm Hmax Hfull Ht.
  destruct (exec _ _ q) as [[r q'] o] eqn:E. run_in E; repeat f_equal; queue_eq q.
Qed.

Lemma timed_put_resume_full env item (endtime : Q) q :
  _sync_mutex q = false → (_maxsize q <=? _qsize q)%Z = true →
  Qle_bool (endtime - monotonic0 env) 0 = true →
  exec env (Resume (K_sync_put item (Some endtime))) q
  = (Fail SyncQueueFull,
     set_sync_not_full_waiting (_sync_not_full_waiting q - 1) q, []).
Proof.
  intros Hm Hfull Ht.
  destruct (exec _ _ q) as [[r q'] o] eqn:E. run_in E; repeat f_equal; queue_eq q.
Qed.

(** C7: a [put] that raises [Full] leaves the queue as it found it: the
    buffer, [unfinished_tasks], the finished signal, the closing flag,
    [maxsize], [_pending] and the mutex are what they were, and no call
    goes out.  The blocking facade's [put] that raises at once, and
    [put_nowait], change nothing at all; a timed [put] that raises after
    its wait gives back the waiter count it took when it parked;
    [put_nowait] of the task facade has at most bound the facade to the
    running event loop, as on any first use.  In the scenario a queue with [maxsize=2] has taken [A] and
    [B]; [put(C, timeout=t)] with [t >= 0] raises [Full], at once or when
    its wait returns after the deadline, and the queue is then what it
    was before the call: the buffer is [[A; B]] and [unfinished_tasks] is
    2. *)
Theorem full_put_leaves_queue (A B C : T) (t : Q) (loop0 : option loop)
    (e1 e2 env env' : Env) :
  (0 <= t)%Q →
  (monotonic0 env + t - monotonic0 env' <= 0)%Q →
  (∀ e a item q err q' o,
     put_item a = Some item → exec e a q = (Fail err, q', o) →
     err = SyncQueueFull ∨ err = AsyncQueueFull →
     _queue q' = _queue q ∧ _unfinished_tasks q' = _unfinished_tasks q ∧
     _finished q' = _finished q ∧ _closing q' = _closing q ∧
     _maxsize q' = _maxsize q ∧ _pending q' = _pending q ∧
     _sync_mutex q' = _sync_mutex q ∧ o = []) ∧
  (∀ e item block timeout q q' o,
     exec e (Sync_put item block timeout) q = (Fail SyncQueueFull, q', o) →
     q' = q) ∧
  (∀ e item q q' o,
     exec e (Sync_put_nowait item) q = (Fail SyncQueueFull, q', o) →
     q' = q) ∧
  (∀ e item endtime q q' o,
     exec e (Resume (K_sync_put item endtime)) q = (Fail SyncQueueFull, q', o) →
     q' = set_sync_not_full_waiting (_sync_not_full_waiting q - 1) q) ∧
  (∀ e item q q' o,
     exec e (Async_put_nowait item) q = (Fail AsyncQueueFull, q', o) →
     q' = set_loop (running_loop e) q) ∧
  let q2 := run [(e1, Sync_put A true None); (e2, Sync_put B true None)]
                (__init__ Fifo 2 loop0) in
  let x := exec env (Sync_put C true (Some t)) q2 in
  let k := K_sync_put C (Some (monotonic0 env + t)%Q) in
  _queue q2 = [A; B] ∧ _unfinished_tasks q2 = 2%Z ∧
  (x = (Fail SyncQueueFull, q2, []) ∨
   x = (Park k, set_sync_not_full_waiting 1 q2, []) ∧
   exec env' (Resume k) (st x) = (Fail SyncQueueFull, q2, [])).
Proof.
  intros Ht Hdead. split_and!.
  - intros e a item q err q' o Hput E Herr.
    destruct a as [| | | | | | | | | | | | | | | | | | | | | | | | | | | | |[]| | | |];
      try done; run_in E; destruct Herr; try done; split_and!; congruence.
  - intros e item block timeout q q' o E. run_in E; queue_eq q.
  - intros e item q q' o E. run_in E; queue_eq q.
  - intros e item endtime q q' o E. run_in E; queue_eq q.
  - intros e item q q' o E. run_in E; queue_eq q.
  - intros q2 x k. split; [reflexivity|]. split; [reflexivity|].
    apply Qle_bool_iff in Ht, Hdead.
    assert (Hneg : Qlt_bool t 0 = false) by (unfold Qlt_bool; by rewrite Ht).
    subst x. rewrite (timed_put_full env C t q2) by done.
    destruct (Qle_bool (monotonic0 env + t - monotonic1 env) 0);
      [by left|right]. split; [done|]. cbn [st fst snd]. subst k.
    by rewrite timed_put_resume_full.
Qed.

Lemma cancel_cancel (l : list Fut) : cancel <$> (cancel <$> l) = cancel <$> l.
Proof. rewrite <- list_fmap_compose. by apply list_fmap_ext. Qed.

Lemma close_unlocked q :
  _sync_mutex q = false →
  close q = (Done (), set_finished true
                        (set_pending (cancel <$> _pending q)
                           (set_closing true q)), [Notify_all All_tasks_done]).
Proof.
  intros Hm. destruct (close q) as [[r q'] o] eqn:E. run_in E.
  repeat f_equal. queue_eq q.
Qed.

(** C8: [close()] returns, sets the closing flag and the finished signal;
    calling it again any number of times, it returns again and the queue
    object is what the first call left: the flag and the signal stay set
    and nothing else changes. *)
Theorem close_idempotent (q : Queue) (n : nat) :
  _sync_mutex q = false →
  let q1 := st (close q) in
  res (close q) = Done () ∧ _closing q1 = true ∧ _finished q1 = true ∧
  res (close q1) = Done () ∧
  Nat.iter n (λ q, st (close q)) q1 = q1.
Proof.
  intros Hm q1. subst q1. rewrite (close_unlocked q Hm). cbn [st res fst snd].
  set (q1 := set_finished _ _).
  assert (Hq1 : close q1 = (Done (), q1, [Notify_all All_tasks_done])).
  { rewrite close_unlocked by done. subst q1. reduce_queue.
    by rewrite cancel_cancel. }
  split_and!; [done..|by rewrite Hq1|].
  induction n as [|n IH]; [done|]. rewrite Nat.iter_succ, IH. by rewrite Hq1.
Qed.

(** C9: the property [closed] is true exactly when the closing flag is
    set and [_pending] is empty; [close()] sets the flag and takes nothing
    out of [_pending], so right after [close()] on a queue with
    notification jobs in flight the flag is set and [closed] is false. *)
Theorem closed_spec (q : Queue) :
  (closed q = true ↔ _closing q = true ∧ _pending q = []) ∧
  (_sync_mutex q = false → _pending q ≠ [] →
   let q1 := st (close q) in
   _closing q1 = true ∧ length (_pending q1) = length (_pending q) ∧
   closed q1 = false).
Proof.
  split.
  - unfold closed. rewrite andb_true_iff, bool_decide_eq_true. done.
  - intros Hm Hp q1. subst q1. rewrite (close_unlocked q Hm).
    cbn [st fst snd]. unfold closed. reduce_queue.
    split; [done|]. split; [by rewrite length_fmap|].
    apply bool_decide_eq_false. by destruct (_pending q).
Qed.

(** C4 (as amended): once the closing flag is set, [put], [get],
    [put_nowait], [get_nowait], [task_done] and [join] of either facade
    raise the [RuntimeError] of the closed queue and leave the queue as it
    is ([join] of the task facade once it holds the mutex, the others
    before they ask for it); the properties and size queries [closed],
    [maxsize], [qsize], [unfinished_tasks], [empty] and [full] of either
    facade still return their value. *)
Theorem closing_queue (env : Env) (a : action) (q : Queue) :
  _closing q = true →
  (checks_closing a = true → (a = Async_join → _sync_mutex q = false) →
   exec env a q = (Fail RuntimeError_closed, q, [])) ∧
  (is_query a = true → ∃ v, exec env a q = (Done v, q, [])).
Proof.
  intros Hc. split.
  - intros Ha Hm. destruct (exec env a q) as [[r q'] o] eqn:E.
    destruct a; try done; try (run_in E; done).
    specialize (Hm eq_refl). run_in E. repeat f_equal. queue_eq q.
  - intros Ha. destruct a; try done; eexists; reflexivity.
Qed.

Lemma elem_of_notices (e e1 e2 : effect) (b1 b2 : bool) :
  e1 ≠ e2 →
  (e1 ∈ (if b1 then [e1] else []) ++ (if b2 then [e2] else []) ↔ b1 = true) ∧
  (e2 ∈ (if b1 then [e1] else []) ++ (if b2 then [e2] else []) ↔ b2 = true).
Proof.
  intros Hne. destruct b1, b2; simpl; split; split; try done;
    rewrite ?elem_of_cons, ?elem_of_nil; intuition congruence.
Qed.

(** What a commit of a [put] or a [get] sends out. *)
Lemma commit_notices env a q v q' o same cross :
  exec env a q = (Done v, q', o) →
  same_notice a = Some same → cross_notice a = Some cross →
  o = (if nonzero (same_waiting a q) then [same] else []) ++
      (if nonzero (other_waiting a q) &&
          (negb (thread_side a) ||
           bool_decide (_loop q ≠ None) && negb (loop_closed env))
       then [cross] else []).
Proof.
  intros E Hs Hx.
  destruct a as [| | | | | | | | | | | | | | | | | | | | | | | | | | | | |[]| | | |];
    try done; cbn [same_notice cross_notice] in Hs, Hx; simplify_eq;
    cbn [same_waiting other_waiting thread_side negb orb];
    run_in E; reduce_queue;
    repeat match goal with
           | H : nonzero _ = _ |- _ => rewrite H
           | H : _loop _ = _ |- _ => rewrite H
           | H : loop_closed _ = _ |- _ => rewrite H
           end; try done.
Qed.

(** C3 (as amended): when a [put] (a [get]) of either facade commits and
    returns, it notifies its own domain exactly when the not-empty
    (not-full) waiter count of its own domain is not zero, and it ships a
    notification to the other domain exactly when the count of the other
    domain is not zero; the task side always hands the job to the
    executor, the thread side hands it to the event loop when one is bound
    and takes the callback. *)
Theorem notifications (env : Env) (a : action) (q : Queue) (v : value)
    (q' : Queue) (o : list effect) (same cross : effect) :
  exec env a q = (Done v, q', o) →
  same_notice a = Some same → cross_notice a = Some cross →
  (same ∈ o ↔ same_waiting a q ≠ 0%Z) ∧
  (cross ∈ o ↔
     other_waiting a q ≠ 0%Z ∧
     (thread_side a = true → _loop q ≠ None ∧ loop_closed env = false)).
Proof.
  intros E Hs Hx. rewrite (commit_notices _ _ _ _ _ _ _ _ E Hs Hx).
  assert (Hne : same ≠ cross).
  { destruct a as [| | | | | | | | | | | | | | | | | | | | | | | | | | | | |[]| | | |];
      try done; cbn [same_notice cross_notice] in Hs, Hx; by simplify_eq. }
  destruct (elem_of_notices same same cross (nonzero (same_waiting a q))
    (nonzero (other_waiting a q) &&
     (negb (thread_side a) ||
      bool_decide (_loop q ≠ None) && negb (loop_closed env))) Hne) as [-> _].
  destruct (elem_of_notices cross same cross (nonzero (same_waiting a q))
    (nonzero (other_waiting a q) &&
     (negb (thread_side a) ||
      bool_decide (_loop q ≠ None) && negb (loop_closed env))) Hne) as [_ ->].
  unfold nonzero. rewrite !andb_true_iff, !orb_true_iff, !andb_true_iff,
    !negb_true_iff, !bool_decide_eq_true, !Z.eqb_neq.
  split; [done|]. destruct (thread_side a); intuition congruence.
Qed.

(** ** More on one action *)

Lemma scheduled_app (o1 o2 : list effect) :
  scheduled (o1 ++ o2) = scheduled o1 + scheduled o2.
Proof. induction o1 as [|e o1 IH]; [done|]. simpl. rewrite IH. lia. Qed.

(** The books an action keeps: the loop it is bound to, the closing flag,
    the mutex, [_pending] and [unfinished_tasks]. *)
Lemma exec_account env a q r q' o :
  exec env a q = (r, q', o) →
  (∀ l, _loop q = Some l → _loop q' = Some l) ∧
  (_closing q = true → _closing q' = true) ∧
  (is_close a = false → _closing q' = _closing q) ∧
  (_sync_mutex q = true → _sync_mutex q' = true) ∧
  (_sync_mutex q = false → _sync_mutex q' = true → leaks_mutex a r = true) ∧
  length (_pending q') + retired a q = length (_pending q) + scheduled o ∧
  (_unfinished_tasks q' + Z.of_nat (length (done_of a r))
   = _unfinished_tasks q + Z.of_nat (length (put_of a r)))%Z.
Proof.
  intros H.
  destruct a as [| | | | | | | | | | | | | | | | | | | | | | | | | | | | |[]|[]|[]| |i];
    run_in H; cbn [is_close leaks_mutex retired done_of is_task_done put_of
                   put_item length];
    rewrite ?length_app, ?length_fmap; cbn [scheduled is_job length];
    bool_to_prop;
    try (split_and!; intros; simplify_eq; (done || congruence || (simpl; lia))).
  1, 2: match goal with H : _pending _ = _ |- _ => rewrite H end;
    split_and!; intros; simplify_eq; (done || congruence || (simpl; lia)).
  (* the done callback *)
  split_and!; try (intros; simplify_eq; (done || congruence || lia)).
  destruct (Nat.ltb_spec i (length (_pending q))) as [Hi|Hi].
  - rewrite length_delete by by apply lookup_lt_is_Some_2. lia.
  - rewrite delete_take_drop, take_ge, drop_ge, app_nil_r by lia. lia.
Qed.

Lemma run_app acts1 acts2 q : run (acts1 ++ acts2) q = run acts2 (run acts1 q).
Proof.
  revert q. induction acts1 as [|[env a] acts1 IH]; intros q; [done|].
  cbn [app run]. apply IH.
Qed.

Lemma run_loop acts : ∀ q l, _loop q = Some l → _loop (run acts q) = Some l.
Proof.
  induction acts as [|[env a] acts IH]; intros q l Hl; [done|]. cbn [run].
  apply IH. destruct (exec env a q) as [[r q'] o] eqn:E.
  by apply (exec_account _ _ _ _ _ _ E).
Qed.

(** X1: the queue is bound to an event loop once.  The first call of the
    task facade that reaches [_get_loop()] binds it to the running loop,
    [put_nowait] even when it then raises [Full]; no execution changes the
    binding afterwards; and [put_nowait], and [get_nowait] on a queue that
    holds an item, called under another loop raise the [RuntimeError] of
    the different loop and leave the queue as it is. *)
Theorem loop_binding (env : Env) (q : Queue) (l : loop) (item : T) :
  running_loop env = Some l →
  _closing q = false → _sync_mutex q = false →
  (_loop q = None →
   _loop (st (exec env (Async_put_nowait item) q)) = Some l) ∧
  (∀ l', _loop q = Some l' → ∀ acts, _loop (run acts q) = Some l') ∧
  (∀ l', _loop q = Some l' → l ≠ l' →
     exec env (Async_put_nowait item) q = (Fail RuntimeError_other_loop, q, []) ∧
     (_queue q ≠ [] →
      exec env Async_get_nowait q = (Fail RuntimeError_other_loop, q, []))).
Proof.
  intros Hrun Hc Hm. split_and!.
  - intros Hl. destruct (exec _ _ q) as [[r q'] o] eqn:E.
    run_in E; done.
  - intros l' Hl acts. by apply run_loop.
  - intros l' Hl Hne. split.
    + destruct (exec _ _ q) as [[r q'] o] eqn:E.
      run_in E; try done. repeat f_equal. queue_eq q.
    + intros Hq.
      assert (Hsz : (Z.of_nat (length (_queue q)) =? 0)%Z = false).
      { apply Z.eqb_neq. destruct (_queue q); [done|simpl; lia]. }
      destruct (exec _ _ q) as [[r q'] o] eqn:E.
      run_in E; try done. repeat f_equal. queue_eq q.
Qed.

Lemma run_closing acts : ∀ q, _closing q = true → _closing (run acts q) = true.
Proof.
  induction acts as [|[env a] acts IH]; intros q Hq; [done|]. cbn [run].
  apply IH. destruct (exec env a q) as [[r q'] o] eqn:E.
  by apply (exec_account _ _ _ _ _ _ E).
Qed.

(** X2: the closing flag only goes up: once set it stays set in every
    execution, and an execution without [close()] and [aclose()] leaves it
    as it was. *)
Theorem closing_monotone (acts : list (Env * action)) (q : Queue) :
  (_closing q = true → _closing (run acts q) = true) ∧
  (Forall (λ ea, is_close ea.2 = false) acts →
   _closing (run acts q) = _closing q).
Proof.
  split; [apply run_closing|].
  revert q. induction acts as [|[env a] acts IH]; intros q Hall; [done|].
  apply Forall_cons in Hall as [Ha Hall]. cbn [run]. rewrite IH by done.
  destruct (exec env a q) as [[r q'] o] eqn:E.
  by apply (exec_account _ _ _ _ _ _ E).
Qed.

Lemma run_dones acts :
  ∀ q, (_unfinished_tasks (run acts q) + Z.of_nat (length (dones acts q))
        = _unfinished_tasks q + Z.of_nat (length (puts acts q)))%Z.
Proof.
  induction acts as [|[env a] acts IH]; intros q; [done|].
  cbn [run dones puts]. rewrite !length_app.
  specialize (IH (st (exec env a q))).
  destruct (exec env a q) as [[r q'] o] eqn:E. cbn [st res fst snd] in *.
  destruct (exec_account _ _ _ _ _ _ E) as (_ & _ & _ & _ & _ & _ & Hu). lia.
Qed.

(** X3: in every execution of a fresh queue [unfinished_tasks] is the
    number of puts that returned less the number of [task_done()] calls
    that returned; and in every execution of a fresh [Queue] or
    [LifoQueue], whose [_put] and [_get] compare no items, [qsize()] is
    the number of puts that returned less the number of gets that
    returned. *)
Theorem counters (k : kind) (maxsize : Z) (loop0 : option loop)
    (acts : list (Env * action)) :
  let q0 := __init__ k maxsize loop0 in
  let q := run acts q0 in
  (_unfinished_tasks q + Z.of_nat (length (dones acts q0))
   = Z.of_nat (length (puts acts q0)))%Z ∧
  (k ≠ Priority →
   (_qsize q + Z.of_nat (length (gets acts q0))
    = Z.of_nat (length (puts acts q0)))%Z).
Proof.
  intros q0 q. split.
  - pose proof (run_dones acts q0) as Hd. cbn [_unfinished_tasks q0 __init__] in Hd.
    fold q in Hd. lia.
  - intros _.
    pose proof (run_conserve acts q0) as Hc. apply Permutation_length in Hc.
    rewrite !length_app in Hc. cbn [_queue q0 __init__ length] in Hc.
    fold q in Hc. unfold _qsize. lia.
Qed.

(** X4: [_pending] keeps track of the notification jobs: an action adds
    to it exactly the jobs it hands to the executor or makes into tasks,
    and only the done callback of a future that is in it takes one out;
    [close()] cancels what is there and takes nothing out. *)
Theorem pending_tracks_jobs (env : Env) (a : action) (q : Queue) :
  let x := exec env a q in
  length (_pending (st x)) + retired a q
  = length (_pending q) + scheduled (out x) ∧
  (_sync_mutex q = false →
   _pending (st (close q)) = cancel <$> _pending q ∧
   Forall (λ f, fut_cancelled f = true) (_pending (st (close q)))).
Proof.
  intros x. split.
  - subst x. destruct (exec env a q) as [[r q'] o] eqn:E. cbn [st out fst snd].
    by apply (exec_account _ _ _ _ _ _ E).
  - intros Hm. rewrite (close_unlocked q Hm). cbn [st fst snd]. reduce_queue.
    split; [done|]. apply Forall_fmap, Forall_forall. done.
Qed.

Lemma run_mutex acts : ∀ q, _sync_mutex q = true → _sync_mutex (run acts q) = true.
Proof.
  induction acts as [|[env a] acts IH]; intros q Hq; [done|]. cbn [run].
  apply IH. destruct (exec env a q) as [[r q'] o] eqn:E.
  by apply (exec_account _ _ _ _ _ _ E).
Qed.

(** X5: [put] and [get] of the task facade call [_get_loop()] after
    [_sync_mutex.acquire()] and before their [try]: called under another
    loop than the one the queue is bound to, they raise and leave the
    mutex locked.  No other way of an action locks it for good; nothing
    unlocks it afterwards; and from then on every call that takes the
    mutex, [close()] included, blocks on an open queue and changes
    nothing. *)
Theorem mutex_leak (env : Env) (q : Queue) (l l' : loop) (item : T) :
  _closing q = false → _sync_mutex q = false →
  _loop q = Some l → running_loop env = Some l' → l' ≠ l →
  let locked := set_sync_mutex true q in
  exec env (Async_put item) q = (Fail RuntimeError_other_loop, locked, []) ∧
  exec env Async_get q = (Fail RuntimeError_other_loop, locked, []) ∧
  (∀ acts, _sync_mutex (run acts locked) = true) ∧
  (∀ env a, takes_mutex a = true → exec env a locked = (Stuck, locked, [])) ∧
  (∀ env a r q' o, exec env a q = (r, q', o) → _sync_mutex q' = true →
     leaks_mutex a r = true).
Proof.
  intros Hc Hm Hl Hrun Hne locked. split_and!.
  - destruct (exec _ _ q) as [[r q'] o] eqn:E. run_in E; done.
  - destruct (exec _ _ q) as [[r q'] o] eqn:E. run_in E; done.
  - intros acts. by apply run_mutex.
  - intros env' a Ha. subst locked.
    destruct (exec _ _ _) as [[r q'] o] eqn:E.
    destruct a; try done; run_in E; done.
  - intros env' a r q' o E Hq'. by apply (exec_account _ _ _ _ _ _ E).
Qed.

(** X6: a [get] that raises [Empty] leaves the queue as it found it and
    makes no call to the outside: [get(block=False)], [get_nowait()] and a
    timed [get] whose deadline has passed at the call change nothing; a
    timed [get] that raises after its wait gives back the waiter count it
    took; [get_nowait()] of the task facade tests the buffer before
    [_get_loop()], so it does not even bind the loop. *)
Theorem empty_get_leaves_queue (e : Env) (q q' : Queue) (o : list effect) :
  (∀ block timeout,
     exec e (Sync_get block timeout) q = (Fail SyncQueueEmpty, q', o) →
     q' = q ∧ o = [] ∧ _queue q = []) ∧
  (exec e Sync_get_nowait q = (Fail SyncQueueEmpty, q', o) →
   q' = q ∧ o = [] ∧ _queue q = []) ∧
  (∀ endtime,
     exec e (Resume (K_sync_get endtime)) q = (Fail SyncQueueEmpty, q', o) →
     q' = set_sync_not_empty_waiting (_sync_not_empty_waiting q - 1) q ∧
     o = [] ∧ _queue q = []) ∧
  (exec e Async_get_nowait q = (Fail AsyncQueueEmpty, q', o) →
   q' = q ∧ o = [] ∧ _queue q = []).
Proof.
  assert (Hnil : ∀ b : list T,
    negb (nonzero (Z.of_nat (length b))) = true → b = []).
  { intros b Hb. unfold nonzero in Hb. bool_to_prop. destruct b; [done|].
    simpl in Hb. lia. }
  split_and!.
  - intros block timeout E. run_in E;
      (split_and!; [queue_eq q|done|by apply Hnil]).
  - intros E. run_in E; (split_and!; [queue_eq q|done|by apply Hnil]).
  - intros endtime E. run_in E;
      (split_and!; [queue_eq q|done|by apply Hnil]).
  - intros E. run_in E; (split_and!; [queue_eq q|done|]).
    bool_to_prop. destruct (_queue q); [done|]. simpl in *. lia.
Qed.

(** X7: the size queries of the two facades, written differently, answer
    the same; [full()] is never true when [maxsize <= 0]; and on an open
    queue whose mutex is free, [full()] is true exactly when [put_nowait]
    raises [Full], [empty()] exactly when [get_nowait] raises [Empty]. *)
Theorem size_queries (env : Env) (q : Queue) (item : T) :
  _closing q = false → _sync_mutex q = false →
  _SyncQueueProxy_full q = _AsyncQueueProxy_full q ∧
  _SyncQueueProxy_empty q = _AsyncQueueProxy_empty q ∧
  ((_maxsize q ≤ 0)%Z → _SyncQueueProxy_full q = false) ∧
  (_SyncQueueProxy_full q = true ↔
   res (exec env (Sync_put_nowait item) q) = Fail SyncQueueFull) ∧
  (_SyncQueueProxy_empty q = true ↔
   res (exec env Sync_get_nowait q) = Fail SyncQueueEmpty).
Proof.
  intros Hc Hm.
  unfold _SyncQueueProxy_full, _AsyncQueueProxy_full, _SyncQueueProxy_empty,
    _AsyncQueueProxy_empty, _AsyncQueueProxy_qsize, nonzero.
  split_and!.
  - destruct (Z.ltb_spec 0 (_maxsize q)), (Z.leb_spec (_maxsize q) 0);
      (done || lia).
  - by rewrite negb_involutive.
  - intros Hmax. destruct (Z.ltb_spec 0 (_maxsize q)); [lia|done].
  - destruct (exec _ _ q) as [[r q'] o] eqn:E. cbn [res fst].
    unfold _qsize. run_in E; rewrite ?Heqb, ?Heqb0, ?Heqb1; done.
  - destruct (exec _ _ q) as [[r q'] o] eqn:E. cbn [res fst].
    unfold _qsize. rewrite negb_involutive.
    run_in E; unfold nonzero in *; bool_to_prop;
      rewrite ?Z.eqb_eq, ?Z.eqb_neq; try done;
      split; (done || lia || (intros; exfalso; lia)).
Qed.

(** X8: [join()] of either facade, on a queue whose mutex is free: while
    the queue is open it returns when [unfinished_tasks] is 0 and parks
    otherwise, changing nothing; a parked [join()] that goes on after
    [close()] raises the [RuntimeError] of the closed queue: [close()]
    ends the wait of [join()]. *)
Theorem join_waits (env : Env) (q : Queue) (a : action) :
  a = Sync_join ∨ a = Async_join ∨
  a = Resume K_sync_join ∨ a = Resume K_async_join →
  _sync_mutex q = false →
  (_closing q = true → exec env a q = (Fail RuntimeError_closed, q, [])) ∧
  (_closing q = false → _unfinished_tasks q = 0%Z →
   exec env a q = (Done VNone, q, [])) ∧
  (_closing q = false → _unfinished_tasks q ≠ 0%Z →
   ∃ k, exec env a q = (Park k, q, []) ∧
        (k = K_sync_join ∨ k = K_async_join)).
Proof.
  intros Ha Hm. split_and!.
  - intros Hc. destruct (exec env a q) as [[r q'] o] eqn:E.
    destruct Ha as [-> |[-> |[-> | ->]]]; run_in E; repeat f_equal; queue_eq q.
  - intros Hc Hu. destruct (exec env a q) as [[r q'] o] eqn:E.
    destruct Ha as [-> |[-> |[-> | ->]]]; run_in E;
      unfold nonzero in *; bool_to_prop; try done; repeat f_equal; queue_eq q.
  - intros Hc Hu. destruct (exec env a q) as [[r q'] o] eqn:E.
    destruct Ha as [-> |[-> |[-> | ->]]]; run_in E;
      unfold nonzero in *; bool_to_prop; try done;
      (eexists; split; [repeat f_equal; queue_eq q|by (left + right)]).
Qed.

(** X9: a [put] or a [get] of the blocking facade parked in its wait does
    not look at the closing flag when it goes on: after [close()] a parked
    [put] that finds room puts its item and returns, a parked [get] that
    finds an item returns one, and a parked [put] without timeout that
    finds the queue full parks again. *)
Theorem parked_ignores_close (env : Env) (q : Queue) (item : T)
    (endtime : option Q) :
  _closing q = true → _sync_mutex q = false →
  ((_maxsize q <=? _qsize q)%Z = false →
   ∃ q' o, exec env (Resume (K_sync_put item endtime)) q = (Done VNone, q', o) ∧
           _queue q' ≡ₚ item :: _queue q ∧ _closing q' = true) ∧
  (_queue q ≠ [] →
   ∃ r q' o, exec env (Resume (K_sync_get endtime)) q = (Done (VItem r), q', o) ∧
             r :: _queue q' ≡ₚ _queue q ∧ _closing q' = true) ∧
  ((_maxsize q <=? _qsize q)%Z = true →
   exec env (Resume (K_sync_put item None)) q
   = (Park (K_sync_put item None), q, [])).
Proof.
  intros Hc Hm. split_and!.
  - intros Hroom.
    destruct (heappush_total (_queue q) item) as [h Hh].
    destruct (exec env _ q) as [[x q'] o] eqn:E.
    assert (∃ v, x = Done v) as [v ->].
    { destruct (_kind q) eqn:Hk; run_in E; by eexists. }
    destruct (exec_cases_commit _ _ _ _ _ _ E)
      as [(Hp & _)|[(y & Hp & _ & Hb & _ & _ & _ & Hcl)|(y & Hp & _)]];
      cbn [put_of put_item] in Hp; try done. injection Hp as <-.
    destruct (returning_Done _ _ _ _ _ _ E) as [[] ->].
    eexists _, _. split; [done|]. split; [by eapply put_buffer_perm|congruence].
  - intros Hne.
    destruct (get_buffer_total (_kind q) _ Hne) as [[r rest] Hg].
    assert (Hsz : negb (nonzero (Z.of_nat (length (_queue q)))) = false).
    { unfold nonzero. apply negb_false_iff, negb_true_iff, Z.eqb_neq.
      destruct (_queue q); [done|simpl; lia]. }
    unfold get_buffer in Hg.
    destruct (exec env _ q) as [[x q'] o] eqn:E.
    assert (∃ r', x = Done (VItem r')) as [r' ->].
    { destruct (_kind q) eqn:Hk; run_in E; by eexists. }
    destruct (exec_cases_commit _ _ _ _ _ _ E)
      as [(_ & Hp & _)|[(y & _ & Hp & _)|(y & _ & Hp & Hb & _ & _ & Hcl)]];
      cbn [got_of] in Hp; try done. injection Hp as <-.
    eexists _, _, _. split; [done|]. split; [by eapply get_buffer_perm|congruence].
  - intros Hfull. destruct (exec env _ q) as [[x q'] o] eqn:E.
    run_in E. f_equal. f_equal. destruct q.
    cbn [_sync_mutex] in Hm. subst.
    unfold set_sync_mutex, set_sync_not_full_waiting. reduce_queue.
    f_equal. lia.
Qed.

(** X10: the order of shutdown.  [wait_closed()] before [close()] raises
    and changes nothing; after [close()] it gives way once, then returns
    if [_pending] is empty and waits for the futures otherwise;
    [aclose()] on an open queue whose mutex is free leaves the queue as
    [close()] does and is then where [wait_closed()] is. *)
Theorem shutdown_order (env : Env) (q : Queue) :
  (_closing q = false →
   exec env Wait_closed q = (Fail RuntimeError_not_closed, q, [])) ∧
  (_closing q = true →
   exec env Wait_closed q = (Park K_wait_closed_sleep, q, []) ∧
   exec env (Resume K_wait_closed_sleep) q
   = (if bool_decide (_pending q = []) then Done VNone
      else Park K_wait_closed_pending, q, [])) ∧
  (_sync_mutex q = false →
   exec env Aclose q
   = (Park K_wait_closed_sleep, st (close q), [Notify_all All_tasks_done])).
Proof.
  split_and!.
  - intros Hc. assert (Hn : negb (_closing q) = true) by by rewrite Hc.
    destruct (exec env _ q) as [[x q'] o] eqn:E. by run_in E.
  - intros Hc. assert (Hn : negb (_closing q) = false) by by rewrite Hc.
    split.
    + destruct (exec env _ q) as [[x q'] o] eqn:E. by run_in E.
    + destruct (exec env _ q) as [[x q'] o] eqn:E.
      run_in E; by rewrite ?Heql.
  - intros Hm. rewrite (close_unlocked q Hm). cbn [st fst snd].
    destruct (exec env _ q) as [[x q'] o] eqn:E. run_in E.
    repeat f_equal. queue_eq q.
Qed.

Lemma run_done_callbacks env (order : list nat) : ∀ q,
  length order = length (_pending q) →
  (∀ j i, order !! j = Some i → i + j < length (_pending q)) →
  let retire := (λ i, (env, Done_callback i)) <$> order in
  _pending (run retire q) = [] ∧ _closing (run retire q) = _closing q.
Proof.
  induction order as [|i order IH]; intros q Hlen Hok retire; subst retire.
  { cbn [fmap list_fmap run]. split; [|done]. by destruct (_pending q). }
  cbn [fmap list_fmap run].
  change (st (exec env (Done_callback i) q))
    with (set_pending (delete i (_pending q)) q).
  pose proof (Hok 0 i eq_refl) as Hi.
  assert (Hdel : length (delete i (_pending q)) = length order).
  { assert (Hf : is_Some (_pending q !! i))
      by (apply lookup_lt_is_Some_2; lia).
    pose proof (length_delete _ _ Hf) as Hd.
    cbn [length] in Hlen. lia. }
  assert (Hp : _pending (set_pending (delete i (_pending q)) q)
               = delete i (_pending q)) by done.
  destruct (IH (set_pending (delete i (_pending q)) q)) as [H1 H2].
  - by rewrite Hp, Hdel.
  - intros j i' Hj. rewrite Hp, Hdel.
    specialize (Hok (S j) i' Hj). cbn [length] in Hlen. lia.
  - by rewrite H1, H2.
Qed.

(** X11: after [close()], [closed] becomes true when the done callbacks of
    the futures of [_pending] have run, one for each and in any order
    ([order] gives the place in [_pending] of the future whose callback
    runs next): the queue is fully closed once its notification jobs have
    retired. *)
Theorem closed_after_callbacks (env : Env) (q : Queue) (order : list nat) :
  _sync_mutex q = false →
  length order = length (_pending q) →
  (∀ j i, order !! j = Some i → i + j < length (_pending q)) →
  let q1 := st (close q) in
  let retire := (λ i, (env, Done_callback i)) <$> order in
  closed (run retire q1) = true.
Proof.
  intros Hm Hlen Hok q1 retire. subst q1 retire.
  rewrite (close_unlocked q Hm). cbn [st fst snd]. set (q1 := set_finished _ _).
  assert (Hlen1 : length (_pending q1) = length (_pending q)).
  { subst q1. reduce_queue. by rewrite length_fmap. }
  destruct (run_done_callbacks env order q1) as [Hp Hc].
  - by rewrite Hlen1.
  - intros j i Hj. rewrite Hlen1. by apply Hok.
  - unfold closed. rewrite Hp, Hc. by subst q1.
Qed.

(** [get_nowait()] on an open queue that holds an item: what it returns
    and how it leaves the queue. *)
Lemma get_nowait_step env q :
  _closing q = false → _sync_mutex q = false → _queue q ≠ [] →
  ∃ r q' o, exec env Sync_get_nowait q = (Done (VItem r), q', o) ∧
    get_buffer (_kind q) (_queue q) = Some (r, _queue q') ∧
    _closing q' = false ∧ _sync_mutex q' = false ∧ _kind q' = _kind q.
Proof.
  intros Hc Hm Hne.
  destruct (get_nowait_returns env q Hc Hm Hne) as (r & q' & o & E).
  exists r, q', o. split; [done|].
  destruct (exec_cases_commit _ _ _ _ _ _ E)
    as [(_ & Hp & _)|[(y & _ & Hp & _)|(y & _ & Hp & Hb & _ & _ & Hcl)]];
    cbn [got_of] in Hp; try done. injection Hp as <-.
  split_and!; [done|congruence| |by apply (exec_kind _ _ _ _ _ _ E)].
  destruct (exec_account _ _ _ _ _ _ E) as (_ & _ & _ & _ & Hleak & _).
  destruct (_sync_mutex q') eqn:Hq'; [|done]. by specialize (Hleak Hm eq_refl).
Qed.

(** X12: emptying an open queue with [get_nowait()], one call for each
    item: a [Queue] gives its buffer in order, a [LifoQueue] in reverse,
    and a [PriorityQueue] whose buffer is a heap gives the items in
    ascending order when [<] is a strict weak order. *)
Theorem drain_order (env : Env) (q : Queue) :
  _closing q = false → _sync_mutex q = false →
  let acts := replicate (length (_queue q)) (env, Sync_get_nowait) in
  _queue (run acts q) = [] ∧
  match _kind q with
  | Fifo => gets acts q = _queue q
  | Lifo => gets acts q = reverse (_queue q)
  | Priority =>
    strict_weak_order → heap_ok (_queue q) →
    gets acts q ≡ₚ _queue q ∧ StronglySorted le (gets acts q)
  end.
Proof.
  intros Hc Hm. cbv zeta.
  remember (length (_queue q)) as n eqn:Hn. symmetry in Hn.
  revert q Hn Hc Hm. induction n as [|n IH]; intros q Hn Hc Hm.
  { destruct (_queue q) eqn:Hq; [|done]. cbn [replicate run gets].
    split; [done|]. destruct (_kind q); [done..|]. intros _ _.
    split; [done|constructor]. }
  assert (Hne : _queue q ≠ []) by (by destruct (_queue q)).
  destruct (get_nowait_step env q Hc Hm Hne)
    as (r & q' & o & E & Hg & Hc' & Hm' & Hk').
  cbn [replicate run gets]. rewrite E. cbn [st res got_of fst snd app].
  assert (Hlen : length (_queue q') = n).
  { apply get_buffer_perm, Permutation_length in Hg. simpl in Hg. lia. }
  destruct (IH q' Hlen Hc' Hm') as [IH1 IH2]. split; [done|].
  rewrite Hk' in IH2. destruct (_kind q); cbn [get_buffer] in Hg.
  - destruct (_queue q) as [|y rest]; simplify_eq/=. by rewrite IH2.
  - apply pop_Some in Hg. rewrite Hg, reverse_snoc. by rewrite IH2.
  - intros Ho Hh. pose proof Ho as [Hasym Hneg].
    destruct (heappop_ok Hasym Hneg _ Hh Hne) as (y & h' & E' & Hok & Hperm & Hmin).
    rewrite E' in Hg. injection Hg as -> ->.
    destruct (IH2 Ho Hok) as [IHp IHs]. split.
    + by rewrite IHp.
    + constructor; [done|]. apply Forall_forall. intros z Hz. apply Hmin.
      rewrite <- Hperm, <- IHp. by right.
Qed.

(** X13: a queue with [maxsize <= 0] has no bound: while it is open and
    its mutex is free, [put] of the blocking facade never raises [Full],
    never looks at [timeout] and never waits, whatever [block] and
    [timeout] are, and [put] and [put_nowait] of the task facade, under
    the loop of the queue, never raise [Full] and never wait; on a
    [Queue] and on a [LifoQueue], whose [_put] compares no items, these
    calls return. *)
Theorem unbounded_put (env : Env) (q : Queue) (item : T) (l : loop) :
  (_maxsize q ≤ 0)%Z → _closing q = false → _sync_mutex q = false →
  (∀ block timeout,
     let r := res (exec env (Sync_put item block timeout) q) in
     r ≠ Fail SyncQueueFull ∧ r ≠ Fail ValueError_timeout ∧
     (∀ k, r ≠ Park k) ∧ (_kind q ≠ Priority → r = Done VNone)) ∧
  (running_loop env = Some l → _loop q = None ∨ _loop q = Some l →
   ∀ a, a = Async_put item ∨ a = Async_put_nowait item →
     let r := res (exec env a q) in
     r ≠ Fail AsyncQueueFull ∧ (∀ k, r ≠ Park k) ∧
     (_kind q ≠ Priority → r = Done VNone)).
Proof.
  intros Hmax%Z.ltb_ge Hc Hm. split.
  - intros block timeout r. subst r.
    destruct (exec env _ q) as [[x q'] o] eqn:E. cbn [res fst].
    destruct (_kind q) eqn:Hk; run_in E; split_and!; done.
  - intros Hrun Hl a Ha r. subst r.
    destruct (exec env a q) as [[x q'] o] eqn:E. cbn [res fst].
    destruct Hl as [Hl|Hl]; destruct Ha as [-> | ->];
      destruct (_kind q) eqn:Hk; run_in E; split_and!; done.
Qed.

(** X14: a suspended [put] or [get] of the task facade whose wait is
    cancelled takes its count off the waiters and raises
    [CancelledError]: the queue is what it was before the call, but for
    the loop it is now bound to, and the mutex is free. *)
Theorem cancel_restores (env env' : Env) (a : action) (q q1 : Queue)
    (k : kont) (o : list effect) :
  (a = Async_get ∨ ∃ item, a = Async_put item) →
  exec env a q = (Park k, q1, o) →
  o = [] ∧ _sync_mutex q1 = false ∧
  exec env' (Cancel k) q1
  = (Fail CancelledError, set_loop (running_loop env) q, []).
Proof.
  intros [-> |[item ->]] E; run_in E; (split; [done|]); (split; [done|]);
    (destruct (exec env' _ _) as [[x q'] o'] eqn:E'; run_in E';
     f_equal; f_equal; destruct q; reduce_queue;
     unfold set_sync_mutex, set_async_not_empty_waiting,
       set_async_not_full_waiting, set_loop; reduce_queue;
     simplify_eq/=; f_equal; lia).
Qed.

(** X15: a thread wakes a task across the two domains.  A [get] of the
    task facade parks on the empty queue; [put] of the blocking facade
    then hands [_make_async_not_empty_notifier] to the loop of the queue;
    run by the loop, the callback creates the notifier task and keeps it
    in [_pending]; the task notifies [_async_not_empty], and the parked
    [get] returns the item that was put. *)
Theorem thread_put_wakes_task (env thread : Env) (q : Queue) (l : loop)
    (x : T) :
  _closing q = false → _sync_mutex q = false → _queue q = [] →
  running_loop env = Some l → _loop q = None ∨ _loop q = Some l →
  loop_closed thread = false → (0 ≤ _async_not_empty_waiting q)%Z →
  let x1 := exec env Async_get q in
  let x2 := exec thread (Sync_put x true None) (st x1) in
  let x3 := exec env (Loop_callback Make_async_not_empty_notifier) (st x2) in
  let x4 := exec env (Job_run (length (_pending (st x2)))) (st x3) in
  let x5 := exec env (Resume (K_async_get l)) (st x4) in
  res x1 = Park (K_async_get l) ∧
  res x2 = Done VNone ∧
  Call_soon_threadsafe Make_async_not_empty_notifier ∈ out x2 ∧
  out x3 = [Create_task Async_not_empty_notifier] ∧
  out x4 = [Notify Async_not_empty] ∧
  res x5 = Done (VItem x) ∧ _queue (st x5) = [] ∧
  _sync_mutex (st x5) = false ∧
  _async_not_empty_waiting (st x5) = _async_not_empty_waiting q.
Proof.
  intros Hc Hm Hq Hrun Hl Hlc Hw x1 x2 x3 x4 x5.
  assert (Hz : (Z.of_nat (length (_queue q)) =? 0)%Z = true) by (by rewrite Hq).
  destruct (exec env Async_get q) as [[r1 q1] o1] eqn:E1.
  assert (r1 = Park (K_async_get l) ∧ o1 = [] ∧
          q1 = set_async_not_empty_waiting (_async_not_empty_waiting q + 1)
                 (set_loop (Some l) q)) as (-> & -> & ->).
  { destruct Hl as [Hl|Hl]; run_in E1; try done;
      (split; [done|]); (split; [done|]);
      destruct q; cbn in *; simplify_eq; done. }
  subst x1. cbn [st fst snd] in *. clear E1.
  set (q1 := set_async_not_empty_waiting _ _) in *.
  assert (H1 : _closing q1 = false ∧ _sync_mutex q1 = false ∧
               _queue q1 = [] ∧ _loop q1 = Some l ∧
               _async_not_empty_waiting q1 = (_async_not_empty_waiting q + 1)%Z)
    by done.
  clearbody q1. destruct H1 as (Hc1 & Hm1 & Hq1 & Hl1 & Hw1).
  assert (Hnz : nonzero (_async_not_empty_waiting q1) = true).
  { unfold nonzero. apply negb_true_iff, Z.eqb_neq. lia. }
  assert (Hpush : heappush (_queue q1) x = Some [x]) by (by rewrite Hq1).
  destruct (exec thread (Sync_put x true None) q1) as [[r2 q2] o2] eqn:E2.
  assert (r2 = Done VNone ∧
          Call_soon_threadsafe Make_async_not_empty_notifier ∈ o2 ∧
          _closing q2 = false ∧ _sync_mutex q2 = false ∧
          _queue q2 = [x] ∧ _loop q2 = Some l ∧
          _async_not_empty_waiting q2 = _async_not_empty_waiting q1)
    as (-> & Ho2 & Hc2 & Hm2 & Hq2 & Hl2 & Hw2).
  { destruct (_kind q1) eqn:Hk; run_in E2;
      rewrite ?Hq1 in *; bool_to_prop; cbn [length app] in *; try lia;
      split_and!; try done;
      repeat constructor. }
  subst x2. cbn [st fst snd] in *. clear E2.
  destruct (exec env (Loop_callback _) q2) as [[r3 q3] o3] eqn:E3.
  assert (o3 = [Create_task Async_not_empty_notifier] ∧
          q3 = set_pending (_pending q2 ++
                 [{| fut_job := Async_not_empty_notifier;
                     fut_cancelled := false |}]) q2) as [-> ->].
  { by run_in E3. }
  subst x3. cbn [st fst snd] in *. clear E3.
  set (q3 := set_pending _ q2) in *.
  assert (H3 : _sync_mutex q3 = false ∧ _queue q3 = [x] ∧
               _async_not_empty_waiting q3 = _async_not_empty_waiting q2 ∧
               _pending q3 !! length (_pending q2)
               = Some {| fut_job := Async_not_empty_notifier;
                         fut_cancelled := false |}).
  { split_and!; [done..|]. by apply list_lookup_middle. }
  clearbody q3. destruct H3 as (Hm3 & Hq3 & Hw3 & Hjob).
  destruct (exec env (Job_run _) q3) as [[r4 q4] o4] eqn:E4.
  assert (o4 = [Notify Async_not_empty] ∧ q4 = q3) as [-> ->].
  { by run_in E4. }
  subst x4. cbn [st fst snd] in *. clear E4.
  assert (Hz3 : (Z.of_nat (length (_queue q3)) =? 0)%Z = false)
    by (by rewrite Hq3).
  assert (Hpopleft : popleft (_queue q3) = Some (x, [])) by (by rewrite Hq3).
  assert (Hpop : pop (_queue q3) = Some (x, [])) by (by rewrite Hq3).
  assert (Hheappop : heappop (_queue q3) = Some (x, [])) by (by rewrite Hq3).
  destruct (exec env (Resume _) q3) as [[r5 q5] o5] eqn:E5.
  subst x5. cbn [st res out fst snd].
  split_and!; try done;
    (destruct (_kind q3) eqn:Hk; run_in E5; try done; lia).
Qed.

(** X16: a task wakes a thread across the two domains.  A blocking [get]
    parks on the empty queue; [put] of the task facade then hands
    [_sync_not_empty.notify] to the executor and keeps the future last in
    [_pending]; the job notifies under the mutex and leaves the queue as
    it is, and the parked [get] returns the item that was put. *)
Theorem task_put_wakes_thread (env thread : Env) (q : Queue) (l : loop)
    (x : T) :
  _closing q = false → _sync_mutex q = false → _queue q = [] →
  running_loop env = Some l → _loop q = None ∨ _loop q = Some l →
  (0 ≤ _sync_not_empty_waiting q)%Z →
  let x1 := exec thread (Sync_get true None) q in
  let x2 := exec env (Async_put x) (st x1) in
  let x3 := exec thread (Job_run (length (_pending (st x2)) - 1)) (st x2) in
  let x4 := exec thread (Resume (K_sync_get None)) (st x3) in
  res x1 = Park (K_sync_get None) ∧
  res x2 = Done VNone ∧
  Run_in_executor Sync_not_empty_notifier ∈ out x2 ∧
  last (_pending (st x2))
  = Some {| fut_job := Sync_not_empty_notifier; fut_cancelled := false |} ∧
  x3 = (Done VNone, st x2, [Notify Sync_not_empty]) ∧
  res x4 = Done (VItem x) ∧ _queue (st x4) = [] ∧
  _sync_mutex (st x4) = false ∧
  _sync_not_empty_waiting (st x4) = _sync_not_empty_waiting q.
Proof.
  intros Hc Hm Hq Hrun Hl Hw x1 x2 x3 x4.
  assert (Hz : negb (nonzero (Z.of_nat (length (_queue q)))) = true)
    by (by rewrite Hq).
  destruct (exec thread (Sync_get true None) q) as [[r1 q1] o1] eqn:E1.
  assert (r1 = Park (K_sync_get None) ∧
          q1 = set_sync_not_empty_waiting (_sync_not_empty_waiting q + 1) q)
    as (-> & ->).
  { run_in E1; try done. split; [done|].
    destruct q; cbn in *; simplify_eq; done. }
  subst x1. cbn [st fst snd] in *. clear E1.
  set (q1 := set_sync_not_empty_waiting _ _) in *.
  assert (H1 : _closing q1 = false ∧ _sync_mutex q1 = false ∧
               _queue q1 = [] ∧ _loop q1 = _loop q ∧
               _sync_not_empty_waiting q1 = (_sync_not_empty_waiting q + 1)%Z)
    by done.
  clearbody q1. destruct H1 as (Hc1 & Hm1 & Hq1 & Hl1 & Hw1).
  rewrite <- Hl1 in Hl.
  assert (Hnz : nonzero (_sync_not_empty_waiting q1) = true).
  { unfold nonzero. apply negb_true_iff, Z.eqb_neq. lia. }
  assert (Hpush : heappush (_queue q1) x = Some [x]) by (by rewrite Hq1).
  destruct (exec env (Async_put x) q1) as [[r2 q2] o2] eqn:E2.
  assert (r2 = Done VNone ∧
          Run_in_executor Sync_not_empty_notifier ∈ o2 ∧
          last (_pending q2)
          = Some {| fut_job := Sync_not_empty_notifier;
                    fut_cancelled := false |} ∧
          _sync_mutex q2 = false ∧ _queue q2 = [x] ∧
          _sync_not_empty_waiting q2 = _sync_not_empty_waiting q1)
    as (-> & Ho2 & Hlast & Hm2 & Hq2 & Hw2).
  { destruct Hl as [Hl|Hl]; destruct (_kind q1) eqn:Hk; run_in E2;
      rewrite ?Hq1 in *; bool_to_prop; cbn [length app] in *; try lia;
      split_and!; try done; try apply last_snoc; repeat constructor. }
  subst x2. cbn [st res out fst snd] in *. clear E2.
  assert (Hjob : _pending q2 !! (length (_pending q2) - 1)
                 = Some {| fut_job := Sync_not_empty_notifier;
                           fut_cancelled := false |}).
  { rewrite <- Hlast, last_lookup. f_equal. lia. }
  destruct (exec thread (Job_run _) q2) as [[r3 q3] o3] eqn:E3.
  assert (r3 = Done VNone ∧ o3 = [Notify Sync_not_empty] ∧ q3 = q2)
    as (-> & -> & ->).
  { run_in E3. split_and!; [done..|].
    destruct q2; cbn in *; simplify_eq; done. }
  subst x3. cbn [st fst snd] in *. clear E3.
  assert (Hz2 : negb (nonzero (Z.of_nat (length (_queue q2)))) = false)
    by (by rewrite Hq2).
  assert (Hpopleft : popleft (_queue q2) = Some (x, [])) by (by rewrite Hq2).
  assert (Hpop : pop (_queue q2) = Some (x, [])) by (by rewrite Hq2).
  assert (Hheappop : heappop (_queue q2) = Some (x, [])) by (by rewrite Hq2).
  destruct (exec thread (Resume _) q2) as [[r4 q4] o4] eqn:E4.
  subst x4. cbn [st res out fst snd].
  split_and!; try done;
    (destruct (_kind q2) eqn:Hk; run_in E4; try done; lia).
Qed.



End Janus.

Arguments Done {T A} a.
Arguments Fail {T A} e.
Arguments Park {T A} k.
Arguments Stuck {T A}.

(** * The theorems at work on queues of integers *)

(** C1 at work: after [put(3)], [put_nowait(1)] on the task facade and
    [put_nowait(2)], [get_nowait()] returns 1 from a [PriorityQueue]; after
    puts of 10, 20, 30 it returns 30 from a [LifoQueue] and 10 from a
    [Queue], newer and older than what stays behind. *)
Lemma strategy_order_witness :
  let env := {| monotonic0 := 0; monotonic1 := 0;
                running_loop := Some 1; loop_closed := false |} in
  let mixed := [(env, Sync_put 3%Z true None); (env, Async_put_nowait 1%Z);
                (env, Sync_put_nowait 2%Z)] in
  let rising := [(env, Sync_put 10%Z true None); (env, Async_put_nowait 20%Z);
                 (env, Sync_put_nowait 30%Z)] in
  let prio := run Z.ltb mixed (__init__ Priority 0 None) in
  let lifo := run Z.ltb rising (__init__ Lifo 0 None) in
  let fifo := run Z.ltb rising (__init__ Fifo 0 None) in
  (res (exec Z.ltb env Sync_get_nowait prio) = Done (VItem 1%Z) ∧
   Forall (λ y, (y <? 1)%Z = false) (_queue prio)) ∧
  (res (exec Z.ltb env Sync_get_nowait lifo) = Done (VItem 30%Z) ∧
   Forall (λ y, Z.to_nat y < Z.to_nat 30)
          (_queue (st (exec Z.ltb env Sync_get_nowait lifo)))) ∧
  (res (exec Z.ltb env Sync_get_nowait fifo) = Done (VItem 10%Z) ∧
   Forall (λ y, Z.to_nat 10 < Z.to_nat y)
          (_queue (st (exec Z.ltb env Sync_get_nowait fifo)))).
Proof.
  intros env mixed rising prio lifo fifo.
  assert (Hs : StronglySorted (λ x y, Z.to_nat x < Z.to_nat y) [10; 20; 30]%Z).
  { repeat constructor; simpl; lia. }
  assert (Ep : exec Z.ltb env Sync_get_nowait prio
               = (Done (VItem 1%Z), st (exec Z.ltb env Sync_get_nowait prio),
                  out (exec Z.ltb env Sync_get_nowait prio)))
    by (vm_compute; reflexivity).
  assert (El : exec Z.ltb env Sync_get_nowait lifo
               = (Done (VItem 30%Z), st (exec Z.ltb env Sync_get_nowait lifo),
                  out (exec Z.ltb env Sync_get_nowait lifo)))
    by (vm_compute; reflexivity).
  assert (Ef : exec Z.ltb env Sync_get_nowait fifo
               = (Done (VItem 10%Z), st (exec Z.ltb env Sync_get_nowait fifo),
                  out (exec Z.ltb env Sync_get_nowait fifo)))
    by (vm_compute; reflexivity).
  split_and!.
  - by rewrite Ep.
  - destruct (strategy_order Z.ltb Priority 0 None mixed) as (_ & _ & H).
    destruct (H env Sync_get_nowait 1%Z _ _ Ep) as [_ H'].
    apply H'. split.
    + intros x y Hxy%Z.ltb_lt. apply Z.ltb_ge. lia.
    + intros x y z Hxy%Z.ltb_ge Hyz%Z.ltb_ge. apply Z.ltb_ge. lia.
  - by rewrite El.
  - destruct (strategy_order Z.ltb Lifo 0 None rising) as (_ & _ & H).
    destruct (H env Sync_get_nowait 30%Z _ _ El) as [_ H'].
    apply (H' Z.to_nat Hs).
  - by rewrite Ef.
  - destruct (strategy_order Z.ltb Fifo 0 None rising) as (_ & _ & H).
    destruct (H env Sync_get_nowait 10%Z _ _ Ef) as (_ & _ & H').
    apply (H' Z.to_nat Hs).
Defined.

(** C2 at work: a queue with [maxsize=1] that has taken one item. *)
Lemma capacity_witness :
  let env := {| monotonic0 := 0; monotonic1 := 0;
                running_loop := Some 1; loop_closed := false |} in
  let q := run Z.ltb [(env, Sync_put 5%Z true None)] (__init__ Fifo 1 None) in
  (_qsize q ≤ 1)%Z ∧
  (∀ env a item v q' o,
     put_item a = Some item → exec Z.ltb env a q = (Done v, q', o) →
     (_qsize q < 1)%Z ∧ _qsize q' = (_qsize q + 1)%Z) ∧
  (∀ env item,
     _closing q = false → _sync_mutex q = false → (_qsize q < 1)%Z →
     ∃ q' o, exec Z.ltb env (Sync_put_nowait item) q = (Done VNone, q', o)).
Proof.
  intros env.
  apply (capacity Z.ltb Fifo 1 None [(env, Sync_put 5%Z true None)]). lia.
Defined.

(** C10 at work: [get_nowait()] on a queue holding 5. *)
Lemma commit_frame_witness :
  let env := {| monotonic0 := 0; monotonic1 := 0;
                running_loop := Some 1; loop_closed := false |} in
  let q := run Z.ltb [(env, Sync_put 5%Z true None)] (__init__ Fifo 0 None) in
  let q' := st (exec Z.ltb env Async_get_nowait q) in
  ∃ item, VItem 5%Z = VItem item ∧ item :: _queue q' ≡ₚ _queue q ∧
    _qsize q' = (_qsize q - 1)%Z ∧
    _unfinished_tasks q' = _unfinished_tasks q ∧
    _finished q' = _finished q ∧ _maxsize q' = _maxsize q ∧
    _closing q' = _closing q.
Proof.
  intros env q q'.
  apply (commit_frame Z.ltb env Async_get_nowait q (VItem 5%Z) q'
           (out (exec Z.ltb env Async_get_nowait q)) eq_refl).
  reflexivity.
Defined.

(** C5 at work: one [put], then [task_done()] twice: the second raises
    and changes nothing; after [close()] it is the error of the closed
    queue that is raised, with one task unfinished. *)
Lemma task_done_open_witness :
  let env := {| monotonic0 := 0; monotonic1 := 0;
                running_loop := Some 1; loop_closed := false |} in
  let q := run Z.ltb [(env, Sync_put 5%Z true None); (env, Sync_task_done)]
               (__init__ Fifo 0 None) in
  let c := run Z.ltb [(env, Sync_put 5%Z true None); (env, Close)]
               (__init__ Fifo 0 None) in
  let x := exec Z.ltb env Sync_task_done q in
  ((0 ≤ _unfinished_tasks q)%Z ∧ (0 ≤ _unfinished_tasks (st x))%Z ∧
   res x = Fail ValueError_task_done ∧ st x = q) ∧
  (_unfinished_tasks c = 1%Z ∧
   exec Z.ltb env Async_task_done c = (Fail RuntimeError_closed, c, [])).
Proof.
  intros env q c x. split.
  - destruct (task_done_open Z.ltb Fifo 0 None
                [(env, Sync_put 5%Z true None); (env, Sync_task_done)] env
                Sync_task_done) as (H0 & H1 & H).
    destruct H as [_ H]; [by left|].
    destruct H as (Hiff & Hsame & _); [vm_compute; reflexivity..|].
    assert (Hz : _unfinished_tasks q = 0%Z) by (vm_compute; reflexivity).
    split_and!; [exact H0|exact H1|by apply Hiff|by apply Hsame].
  - split; [vm_compute; reflexivity|].
    destruct (task_done_open Z.ltb Fifo 0 None
                [(env, Sync_put 5%Z true None); (env, Close)] env
                Async_task_done) as (_ & _ & H).
    destruct H as [H _]; [by right|].
    apply H. vm_compute; reflexivity.
Defined.

(** C5 as stated fails on a closed queue: [unfinished_tasks] is 0 and
    [task_done()] raises the error of the closed queue, on either
    facade. *)
Lemma task_done_closed_counterexample :
  let env := {| monotonic0 := 0; monotonic1 := 0;
                running_loop := Some 1; loop_closed := false |} in
  let q := run Z.ltb [(env, Close)] (__init__ Fifo 0 None) in
  _unfinished_tasks q = 0%Z ∧
  res (exec Z.ltb env Sync_task_done q) = Fail RuntimeError_closed ∧
  res (exec Z.ltb env Async_task_done q) = Fail RuntimeError_closed.
Proof. by vm_compute. Qed.

(** C6 at work: a bounded queue and [timeout=-1]. *)
Lemma negative_timeout_witness :
  let env := {| monotonic0 := 0; monotonic1 := 0;
                running_loop := Some 1; loop_closed := false |} in
  let q := @__init__ Z Fifo 1 None in
  exec Z.ltb env (Sync_get true (Some (-1)%Q)) q
  = (Fail ValueError_timeout, q, []) ∧
  ((0 < _maxsize q)%Z →
   exec Z.ltb env (Sync_put 5%Z true (Some (-1)%Q)) q
   = (Fail ValueError_timeout, q, [])) ∧
  ((_maxsize q ≤ 0)%Z →
   exec Z.ltb env (Sync_put 5%Z true (Some (-1)%Q)) q
   = exec Z.ltb env (Sync_put 5%Z true None) q).
Proof.
  intros env q. apply (negative_timeout Z.ltb env q 5%Z (-1)%Q); reflexivity.
Defined.

(** C6 as stated fails on an unbounded queue: [put(7, True, -1)] returns
    and the item is in the buffer. *)
Lemma negative_timeout_counterexample :
  let env := {| monotonic0 := 0; monotonic1 := 0;
                running_loop := Some 1; loop_closed := false |} in
  let q := @__init__ Z Fifo 0 None in
  let x := exec Z.ltb env (Sync_put 7%Z true (Some (-1)%Q)) q in
  (-1 < 0)%Q ∧ res x = Done VNone ∧ _queue (st x) = [7%Z].
Proof. by vm_compute. Qed.

(** C7 at work: [maxsize=2], items 1 and 2 in, [put(3, timeout=0.1)]; the
    wait returns at time 1. *)
Lemma full_put_leaves_queue_witness :
  let env := {| monotonic0 := 0; monotonic1 := 0;
                running_loop := Some 1; loop_closed := false |} in
  let env' := {| monotonic0 := 1; monotonic1 := 1;
                 running_loop := Some 1; loop_closed := false |} in
  let q2 := run Z.ltb [(env, Sync_put 1%Z true None);
                       (env, Sync_put 2%Z true None)] (__init__ Fifo 2 None) in
  let x := exec Z.ltb env (Sync_put 3%Z true (Some (1 # 10)%Q)) q2 in
  let k := K_sync_put 3%Z (Some (monotonic0 env + (1 # 10))%Q) in
  _queue q2 = [1; 2]%Z ∧ _unfinished_tasks q2 = 2%Z ∧
  (x = (Fail SyncQueueFull, q2, []) ∨
   x = (Park k, set_sync_not_full_waiting 1 q2, []) ∧
   exec Z.ltb env' (Resume k) (st x) = (Fail SyncQueueFull, q2, [])).
Proof.
  intros env env'.
  apply (full_put_leaves_queue Z.ltb 1%Z 2%Z 3%Z (1 # 10)%Q None env env env env');
    by vm_compute.
Defined.

(** C8 at work: [close()] four times on a fresh queue. *)
Lemma close_idempotent_witness :
  let q := @__init__ Z Fifo 0 None in
  let q1 := st (close q) in
  res (close q) = Done () ∧ _closing q1 = true ∧ _finished q1 = true ∧
  res (close q1) = Done () ∧ Nat.iter 3 (λ q, st (close q)) q1 = q1.
Proof.
  intros q. apply (close_idempotent q 3). reflexivity.
Defined.

(** C9 at work: a thread waits in [get()], a task puts with
    [put_nowait], which ships a notification job; [close()] follows at
    once. *)
Lemma closed_spec_witness :
  let env := {| monotonic0 := 0; monotonic1 := 0;
                running_loop := Some 1; loop_closed := false |} in
  let q := run Z.ltb [(env, Sync_get true None); (env, Async_put_nowait 5%Z)]
               (__init__ Fifo 0 None) in
  let q1 := st (close q) in
  _closing q1 = true ∧ length (_pending q1) = length (_pending q) ∧
  closed q1 = false.
Proof.
  intros env q.
  apply (proj2 (closed_spec q)); [reflexivity|]. by vm_compute.
Defined.

(** C4 at work: a closed queue. *)
Lemma closing_queue_witness :
  let env := {| monotonic0 := 0; monotonic1 := 0;
                running_loop := Some 1; loop_closed := false |} in
  let q := run Z.ltb [(env, Close)] (__init__ Fifo 0 None) in
  exec Z.ltb env (Sync_put 1%Z true None) q = (Fail RuntimeError_closed, q, []) ∧
  exec Z.ltb env Async_join q = (Fail RuntimeError_closed, q, []) ∧
  ∃ v, exec Z.ltb env Async_full q = (Done v, q, []).
Proof.
  intros env q.
  pose proof (closing_queue Z.ltb env (Sync_put 1%Z true None) q eq_refl) as H1.
  pose proof (closing_queue Z.ltb env Async_join q eq_refl) as H2.
  pose proof (closing_queue Z.ltb env Async_full q eq_refl) as H3.
  split_and!.
  - by apply H1.
  - by apply H2.
  - by apply H3.
Defined.

(** C4 as stated fails for the size queries: on a closed queue [qsize()],
    [empty()] and [full()] of the blocking facade and [qsize()] of the
    task facade return. *)
Lemma closing_queue_counterexample :
  let env := {| monotonic0 := 0; monotonic1 := 0;
                running_loop := Some 1; loop_closed := false |} in
  let q := run Z.ltb [(env, Sync_put 1%Z true None); (env, Close)]
               (__init__ Fifo 0 None) in
  _closing q = true ∧
  res (exec Z.ltb env Sync_qsize q) = Done (VInt 1) ∧
  res (exec Z.ltb env Sync_empty q) = Done (VBool false) ∧
  res (exec Z.ltb env Sync_full q) = Done (VBool false) ∧
  res (exec Z.ltb env Async_qsize q) = Done (VInt 1).
Proof. by vm_compute. Qed.

(** C3 at work: a thread waits in [get()]; a task's [put_nowait] makes no
    notifier task for its own domain, where nobody waits, and hands one
    job to the executor. *)
Lemma notifications_witness :
  let env := {| monotonic0 := 0; monotonic1 := 0;
                running_loop := Some 1; loop_closed := false |} in
  let q := run Z.ltb [(env, Sync_get true None)] (__init__ Fifo 0 None) in
  let a := Async_put_nowait 5%Z in
  let o := out (exec Z.ltb env a q) in
  (Create_task Async_not_empty_notifier ∈ o ↔ same_waiting a q ≠ 0%Z) ∧
  (Run_in_executor Sync_not_empty_notifier ∈ o ↔
     other_waiting a q ≠ 0%Z ∧
     (thread_side a = true → _loop q ≠ None ∧ loop_closed env = false)).
Proof.
  intros env q a o.
  apply (notifications Z.ltb env a q VNone (st (exec Z.ltb env a q)) o);
    reflexivity.
Defined.

(** C3 as stated fails for the caller's own domain: [put(7)] on a fresh
    queue returns without [_sync_not_empty.notify()], and the same call
    while a thread waits in [get()] makes it: the notification depends on
    the waiter count of the caller's own domain.  It fails for the other
    domain too when the event loop is closed: with a task waiting in
    [get()], [put(7)] on a thread returns and nothing is scheduled. *)
Lemma notifications_counterexample :
  let env := {| monotonic0 := 0; monotonic1 := 0;
                running_loop := Some 1; loop_closed := false |} in
  let gone := {| monotonic0 := 0; monotonic1 := 0;
                 running_loop := None; loop_closed := true |} in
  let a := Sync_put 7%Z true None in
  let q := @__init__ Z Fifo 0 None in
  let q1 := run Z.ltb [(env, Sync_get true None)] q in
  let q2 := run Z.ltb [(env, Async_get)] q in
  same_notice a = Some (Notify Sync_not_empty) ∧
  res (exec Z.ltb env a q) = Done VNone ∧ out (exec Z.ltb env a q) = [] ∧
  res (exec Z.ltb env a q1) = Done VNone ∧
  out (exec Z.ltb env a q1) = [Notify Sync_not_empty] ∧
  other_waiting a q2 = 1%Z ∧
  res (exec Z.ltb gone a q2) = Done VNone ∧ out (exec Z.ltb gone a q2) = [].
Proof. by vm_compute. Qed.

(** X1 at work: a fresh queue is bound to loop 1 by its first
    [put_nowait] on the task facade. *)
Lemma loop_binding_witness :
  let env := {| monotonic0 := 0; monotonic1 := 0;
                running_loop := Some 1; loop_closed := false |} in
  let q := @__init__ Z Fifo 0 None in
  (_loop q = None →
   _loop (st (exec Z.ltb env (Async_put_nowait 5%Z) q)) = Some 1) ∧
  (∀ l', _loop q = Some l' → ∀ acts, _loop (run Z.ltb acts q) = Some l') ∧
  (∀ l', _loop q = Some l' → 1 ≠ l' →
     exec Z.ltb env (Async_put_nowait 5%Z) q
     = (Fail RuntimeError_other_loop, q, []) ∧
     (_queue q ≠ [] →
      exec Z.ltb env Async_get_nowait q
      = (Fail RuntimeError_other_loop, q, []))).
Proof.
  intros env q. apply (loop_binding Z.ltb env q 1 5%Z); reflexivity.
Defined.

(** X5 at work: a queue bound to loop 1, and [put] awaited under loop 2. *)
Lemma mutex_leak_witness :
  let env := {| monotonic0 := 0; monotonic1 := 0;
                running_loop := Some 2; loop_closed := false |} in
  let q := @__init__ Z Fifo 0 (Some 1) in
  let locked := set_sync_mutex true q in
  exec Z.ltb env (Async_put 5%Z) q = (Fail RuntimeError_other_loop, locked, []) ∧
  exec Z.ltb env Async_get q = (Fail RuntimeError_other_loop, locked, []) ∧
  (∀ acts, _sync_mutex (run Z.ltb acts locked) = true) ∧
  (∀ env a, takes_mutex a = true →
     exec Z.ltb env a locked = (Stuck, locked, [])) ∧
  (∀ env a r q' o, exec Z.ltb env a q = (r, q', o) → _sync_mutex q' = true →
     leaks_mutex a r = true).
Proof.
  intros env q.
  apply (mutex_leak Z.ltb env q 1 2 5%Z); [reflexivity..|lia].
Defined.

(** X7 at work: a queue with [maxsize=1] holding one item is full on
    both facades. *)
Lemma size_queries_witness :
  let env := {| monotonic0 := 0; monotonic1 := 0;
                running_loop := Some 1; loop_closed := false |} in
  let q := run Z.ltb [(env, Sync_put 5%Z true None)] (__init__ Fifo 1 None) in
  _SyncQueueProxy_full q = _AsyncQueueProxy_full q ∧
  _SyncQueueProxy_empty q = _AsyncQueueProxy_empty q ∧
  ((_maxsize q ≤ 0)%Z → _SyncQueueProxy_full q = false) ∧
  (_SyncQueueProxy_full q = true ↔
   res (exec Z.ltb env (Sync_put_nowait 6%Z) q) = Fail SyncQueueFull) ∧
  (_SyncQueueProxy_empty q = true ↔
   res (exec Z.ltb env Sync_get_nowait q) = Fail SyncQueueEmpty).
Proof.
  intros env q.
  apply (size_queries Z.ltb env q 6%Z); vm_compute; reflexivity.
Defined.

(** X8 at work: [join()] of the task facade after one [put]. *)
Lemma join_waits_witness :
  let env := {| monotonic0 := 0; monotonic1 := 0;
                running_loop := Some 1; loop_closed := false |} in
  let q := run Z.ltb [(env, Sync_put 5%Z true None)] (__init__ Fifo 0 None) in
  (_closing q = true →
   exec Z.ltb env Async_join q = (Fail RuntimeError_closed, q, [])) ∧
  (_closing q = false → _unfinished_tasks q = 0%Z →
   exec Z.ltb env Async_join q = (Done VNone, q, [])) ∧
  (_closing q = false → _unfinished_tasks q ≠ 0%Z →
   ∃ k, exec Z.ltb env Async_join q = (Park k, q, []) ∧
        (k = K_sync_join ∨ k = K_async_join)).
Proof.
  intros env q. apply (join_waits Z.ltb env q Async_join).
  - right. by left.
  - vm_compute; reflexivity.
Defined.

(** X9 at work: a closed queue with [maxsize=2] that holds one item. *)
Lemma parked_ignores_close_witness :
  let env := {| monotonic0 := 0; monotonic1 := 0;
                running_loop := Some 1; loop_closed := false |} in
  let q := run Z.ltb [(env, Sync_put 5%Z true None); (env, Close)]
               (__init__ Fifo 2 None) in
  ((_maxsize q <=? _qsize q)%Z = false →
   ∃ q' o, exec Z.ltb env (Resume (K_sync_put 6%Z None)) q = (Done VNone, q', o) ∧
           _queue q' ≡ₚ 6%Z :: _queue q ∧ _closing q' = true) ∧
  (_queue q ≠ [] →
   ∃ r q' o, exec Z.ltb env (Resume (K_sync_get None)) q
             = (Done (VItem r), q', o) ∧
             r :: _queue q' ≡ₚ _queue q ∧ _closing q' = true) ∧
  ((_maxsize q <=? _qsize q)%Z = true →
   exec Z.ltb env (Resume (K_sync_put 6%Z None)) q
   = (Park (K_sync_put 6%Z None), q, [])).
Proof.
  intros env q.
  apply (parked_ignores_close Z.ltb env q 6%Z None); vm_compute; reflexivity.
Defined.

(** X11 at work: a queue with two notifier tasks in [_pending]; the done
    callback of the second runs first. *)
Lemma closed_after_callbacks_witness :
  let env := {| monotonic0 := 0; monotonic1 := 0;
                running_loop := Some 1; loop_closed := false |} in
  let q := run Z.ltb [(env, Async_get); (env, Sync_put 5%Z true None);
                      (env, Loop_callback Make_async_not_empty_notifier);
                      (env, Loop_callback Make_async_not_empty_notifier)]
               (__init__ Fifo 0 None) in
  let q1 := st (close q) in
  let retire := (λ i, (env, Done_callback i)) <$> [1; 0] in
  length (_pending q) = 2 ∧ closed (run Z.ltb retire q1) = true.
Proof.
  intros env q.
  assert (Hlen : length (_pending q) = 2) by (vm_compute; reflexivity).
  split; [done|].
  apply (closed_after_callbacks Z.ltb env q [1; 0]).
  - vm_compute; reflexivity.
  - by rewrite Hlen.
  - rewrite Hlen. intros [|[|j]] i Hj; simplify_eq/=; lia.
Defined.

(** X12 at work: a [PriorityQueue] after puts of 3, 1 and 2. *)
Lemma drain_order_witness :
  let env := {| monotonic0 := 0; monotonic1 := 0;
                running_loop := Some 1; loop_closed := false |} in
  let q := run Z.ltb [(env, Sync_put 3%Z true None); (env, Async_put_nowait 1%Z);
                      (env, Sync_put_nowait 2%Z)] (__init__ Priority 0 None) in
  let acts := replicate (length (_queue q)) (env, Sync_get_nowait) in
  _kind q = Priority ∧ _queue (run Z.ltb acts q) = [] ∧
  (strict_weak_order Z.ltb → heap_ok Z.ltb (_queue q) →
   gets Z.ltb acts q ≡ₚ _queue q ∧
   StronglySorted (le Z.ltb) (gets Z.ltb acts q)).
Proof.
  intros env q acts.
  assert (Hk : _kind q = Priority) by (vm_compute; reflexivity).
  assert (Hc : _closing q = false) by (vm_compute; reflexivity).
  assert (Hm : _sync_mutex q = false) by (vm_compute; reflexivity).
  pose proof (drain_order Z.ltb env q Hc Hm) as H. cbv zeta in H.
  rewrite Hk in H. split; [done|]. exact H.
Defined.

(** X13 at work: [put(5, timeout=-1)] on a fresh queue made with
    [maxsize=0], and the puts of the task facade. *)
Lemma unbounded_put_witness :
  let env := {| monotonic0 := 0; monotonic1 := 0;
                running_loop := Some 1; loop_closed := false |} in
  let q := @__init__ Z Fifo 0 None in
  res (exec Z.ltb env (Sync_put 5%Z true (Some (-1)%Q)) q) = Done VNone ∧
  res (exec Z.ltb env (Async_put 5%Z) q) = Done VNone ∧
  res (exec Z.ltb env (Async_put_nowait 5%Z) q) = Done VNone.
Proof.
  intros env q.
  destruct (unbounded_put Z.ltb env q 5%Z 1) as [Hs Ha];
    [simpl; lia|reflexivity..|].
  specialize (Ha eq_refl (or_introl eq_refl)). split_and!.
  - by apply (Hs true (Some (-1)%Q)).
  - by apply (Ha (Async_put 5%Z)); [left|].
  - by apply (Ha (Async_put_nowait 5%Z)); [right|].
Defined.

(** X14 at work: [get] of the task facade parked on a fresh queue, then
    cancelled. *)
Lemma cancel_restores_witness :
  let env := {| monotonic0 := 0; monotonic1 := 0;
                running_loop := Some 1; loop_closed := false |} in
  let q := @__init__ Z Fifo 0 None in
  let q1 := st (exec Z.ltb env Async_get q) in
  let o := out (exec Z.ltb env Async_get q) in
  o = [] ∧ _sync_mutex q1 = false ∧
  exec Z.ltb env (Cancel (K_async_get 1)) q1
  = (Fail CancelledError, set_loop (running_loop env) q, []).
Proof.
  intros env q q1 o.
  apply (cancel_restores Z.ltb env env Async_get q q1 (K_async_get 1) o).
  - by left.
  - vm_compute; reflexivity.
Defined.

(** X15 at work: a task waits in [get()], a thread puts 5. *)
Lemma thread_put_wakes_task_witness :
  let env := {| monotonic0 := 0; monotonic1 := 0;
                running_loop := Some 1; loop_closed := false |} in
  let thread := {| monotonic0 := 0; monotonic1 := 0;
                   running_loop := None; loop_closed := false |} in
  let q := @__init__ Z Fifo 0 None in
  let x1 := exec Z.ltb env Async_get q in
  let x2 := exec Z.ltb thread (Sync_put 5%Z true None) (st x1) in
  let x3 := exec Z.ltb env (Loop_callback Make_async_not_empty_notifier) (st x2) in
  let x4 := exec Z.ltb env (Job_run (length (_pending (st x2)))) (st x3) in
  let x5 := exec Z.ltb env (Resume (K_async_get 1)) (st x4) in
  res x1 = Park (K_async_get 1) ∧
  res x2 = Done VNone ∧
  Call_soon_threadsafe Make_async_not_empty_notifier ∈ out x2 ∧
  out x3 = [Create_task Async_not_empty_notifier] ∧
  out x4 = [Notify Async_not_empty] ∧
  res x5 = Done (VItem 5%Z) ∧ _queue (st x5) = [] ∧
  _sync_mutex (st x5) = false ∧
  _async_not_empty_waiting (st x5) = _async_not_empty_waiting q.
Proof.
  intros env thread q.
  apply (thread_put_wakes_task Z.ltb env thread q 1 5%Z);
    [reflexivity..|by left|reflexivity|simpl; lia].
Defined.

(** X16 at work: a thread waits in [get()], a task puts 5. *)
Lemma task_put_wakes_thread_witness :
  let env := {| monotonic0 := 0; monotonic1 := 0;
                running_loop := Some 1; loop_closed := false |} in
  let thread := {| monotonic0 := 0; monotonic1 := 0;
                   running_loop := None; loop_closed := false |} in
  let q := @__init__ Z Fifo 0 None in
  let x1 := exec Z.ltb thread (Sync_get true None) q in
  let x2 := exec Z.ltb env (Async_put 5%Z) (st x1) in
  let x3 := exec Z.ltb thread (Job_run (length (_pending (st x2)) - 1)) (st x2) in
  let x4 := exec Z.ltb thread (Resume (K_sync_get None)) (st x3) in
  res x1 = Park (K_sync_get None) ∧
  res x2 = Done VNone ∧
  Run_in_executor Sync_not_empty_notifier ∈ out x2 ∧
  last (_pending (st x2))
  = Some {| fut_job := Sync_not_empty_notifier; fut_cancelled := false |} ∧
  x3 = (Done VNone, st x2, [Notify Sync_not_empty]) ∧
  res x4 = Done (VItem 5%Z) ∧ _queue (st x4) = [] ∧
  _sync_mutex (st x4) = false ∧
  _sync_not_empty_waiting (st x4) = _sync_not_empty_waiting q.
Proof.
  intros env thread q.
  apply (task_put_wakes_thread Z.ltb env thread q 1 5%Z);
    [reflexivity..|by left|simpl; lia].
Defined.

